(** * A verified model of [parser.py]: the LL(1) lambda-calculus parser

    The parser of the repository is a recursive-descent procedure over a
    token source.  It keeps one lookahead token, pulls further tokens with
    [lexer.next()], builds [Variable], [Application] and [Abstraction] nodes
    and raises [ParserError(expected, found)] at the first mismatch.

    The embedding below follows the source method by method.  The mutable
    [Parser] object is a record that is threaded explicitly; an exception is
    an outcome of its own; recursion of [_expression] is bounded by a depth
    budget, and a separate theorem shows which budget is always enough. *)

From Stdlib Require Import String List Arith Lia Bool.
Import ListNotations.
Open Scope string_scope.

Set Implicit Arguments.

(** ** Tokens and the token source *)

(** [Token] of the lexer: a [type] and a [value], both Python strings. *)
Record Token : Type := mkToken { type : string; value : string }.

(** The lexer is an external collaborator.  The parser only calls
    [lexer.next()], which returns a token and moves the lexer on. *)
Class Lexer (L : Type) : Type := { next : L -> Token * L }.

(** A lexer over a fixed sequence: it hands out the [pending] tokens one by
    one and then the [eof] token for ever. *)
Record ListLexer : Type := mkListLexer { pending : list Token; eof : Token }.

Definition ListLexer_next (lx : ListLexer) : Token * ListLexer :=
  match pending lx with
  | [] => (eof lx, lx)
  | t :: ts => (t, {| pending := ts; eof := eof lx |})
  end.

#[global] Instance ListLexer_Lexer : Lexer ListLexer := {| next := ListLexer_next |}.

(** The tokens a lexer hands out, by position. *)
Fixpoint nth_token {L} `{Lexer L} (n : nat) (lx : L) : Token :=
  match n with
  | 0 => fst (next lx)
  | S n' => nth_token n' (snd (next lx))
  end.

(** [feeds lx ts lx']: pulling [length ts] tokens from [lx] gives [ts] and
    leaves the lexer [lx']. *)
Fixpoint feeds {L} `{Lexer L} (lx : L) (ts : list Token) (lx' : L) : Prop :=
  match ts with
  | [] => lx = lx'
  | t :: ts' => fst (next lx) = t /\ feeds (snd (next lx)) ts' lx'
  end.

(** ** Syntax trees *)

(** The three node classes of [lambda_calculus_ast]; the parser only calls
    their constructors.  [Abstraction] receives the [Variable] node built by
    [_variable] and the body.  ([Variable] is a reserved word here, so the
    constructor is written [Variable_].) *)
Inductive Node : Type :=
| Variable_ (name : string)
| Application (left_expression right_expression : Node)
| Abstraction (variable body : Node).

Fixpoint height (n : Node) : nat :=
  match n with
  | Variable_ _ => 1
  | Application l r => S (Nat.max (height l) (height r))
  | Abstraction _ b => S (height b)
  end.

(** ** Errors and outcomes *)

(** [ParserError]: the two attributes set by its [__init__]. *)
Record ParserError : Type := mkParserError { expected : string; found : string }.

(** The text passed to [Exception.__init__]. *)
Definition message (e : ParserError) : string :=
  "Expected: " ++ expected e ++ ", Found: " ++ found e.

(** How a call ends: it returns, it raises, or the recursion budget of the
    model is used up. *)
Inductive Outcome (A : Type) : Type :=
| Return (a : A)
| Raise (e : ParserError)
| Diverge.

Arguments Return {A} a.
Arguments Raise {A} e.
Arguments Diverge {A}.

(** ** The parser object *)

Section ParserOver.

Context {L : Type} `{Lexer L}.

(** Attributes [lexer] and [token] of a [Parser]. *)
Record Parser : Type := mkParser { lexer : L; token : Token }.

(** A method: it runs on the object, ends in an outcome and leaves the
    object in a new state. *)
Definition M (A : Type) : Type := Parser -> Outcome A * Parser.

Definition ret {A} (a : A) : M A := fun self => (Return a, self).

Definition raise {A} (e : ParserError) : M A := fun self => (Raise e, self).

Definition bind {A B} (m : M A) (k : A -> M B) : M B :=
  fun self =>
    match m self with
    | (Return a, self') => k a self'
    | (Raise e, self') => (Raise e, self')
    | (Diverge, self') => (Diverge, self')
    end.

Local Notation "x <- m ;; k" := (bind m (fun x => k))
  (at level 61, m at next level, right associativity).
Local Notation "m ;; k" := (bind m (fun _ => k))
  (at level 61, right associativity).

(** [Parser.__init__] *)
Definition Parser_init (lx : L) : Parser :=
  let (t, lx') := next lx in {| lexer := lx'; token := t |}.

(** [Parser._error] *)
Definition _error {A} (expected : string) : M A :=
  fun self => raise (mkParserError expected (type (token self))) self.

(** [Parser._advance] *)
Definition _advance : M unit :=
  fun self =>
    let (t, lx') := next (lexer self) in
    (Return tt, {| lexer := lx'; token := t |}).

(** [Parser._eat] *)
Definition _eat (prediction : string) : M unit :=
  fun self =>
    if type (token self) =? prediction then _advance self
    else _error prediction self.

(** [Parser._variable] *)
Definition _variable : M Node :=
  fun self =>
    if type (token self) =? "SYMBOL" then
      (let name := value (token self) in
       _advance ;;
       ret (Variable_ name)) self
    else _error "SYMBOL" self.

(** [Parser._application]; [expression] is the method [_expression] it
    calls back. *)
Definition _application (expression : M Node) : M Node :=
  fun self =>
    if type (token self) =? "(" then
      (_advance ;;
       left_expression <- expression ;;
       right_expression <- expression ;;
       _eat ")" ;;
       ret (Application left_expression right_expression)) self
    else _error "(" self.

(** [Parser._abstraction] *)
Definition _abstraction (expression : M Node) : M Node :=
  fun self =>
    if (type (token self) =? "λ") || (type (token self) =? "@") then
      (_advance ;;
       variable <- _variable ;;
       _eat "." ;;
       body <- expression ;;
       ret (Abstraction variable body)) self
    else _error "λ or @" self.

(** [Parser._expression].  The budget counts the nested calls of
    [_expression] that are still allowed. *)
Fixpoint _expression (fuel : nat) : M Node :=
  match fuel with
  | 0 => fun self => (Diverge, self)
  | S fuel' =>
      fun self =>
        if type (token self) =? "(" then
          _application (_expression fuel') self
        else if (type (token self) =? "λ") || (type (token self) =? "@") then
          _abstraction (_expression fuel') self
        else if type (token self) =? "SYMBOL" then
          _variable self
        else _error "(, λ, @, or SYMBOL" self
  end.

(** [Parser.parse] *)
Definition parse (fuel : nat) : M Node := _expression fuel.

End ParserOver.

Arguments Parser L : clear implicits.
Arguments M L A : clear implicits.

Notation "x <- m ;; k" := (bind m (fun x => k))
  (at level 61, m at next level, right associativity).
Notation "m ;; k" := (bind m (fun _ => k))
  (at level 61, right associativity).

(** ** Token vocabulary used in statements *)

(** The lookahead types on which [_expression] dispatches. *)
Definition opens_application (ty : string) : bool := ty =? "(".
Definition opens_abstraction (ty : string) : bool := (ty =? "λ") || (ty =? "@").
Definition opens_variable (ty : string) : bool := ty =? "SYMBOL".

Definition starts_expression (ty : string) : bool :=
  opens_application ty || opens_abstraction ty || opens_variable ty.

(** A token whose type makes the parser descend into a production that calls
    [_expression] again. *)
Definition opener (ty : string) : bool :=
  opens_application ty || opens_abstraction ty.

(** Sample tokens. *)
Definition EOF : Token := mkToken "EOF" "".
Definition SYMBOL (name : string) : Token := mkToken "SYMBOL" name.
Definition LPAREN : Token := mkToken "(" "(".
Definition RPAREN : Token := mkToken ")" ")".
Definition LAMBDA : Token := mkToken "λ" "λ".
Definition AT : Token := mkToken "@" "@".
Definition DOT : Token := mkToken "." ".".

(** ** The grammar

    [derives ts n]: the token sequence [ts] is derived from [expression], and
    [n] is the tree of that derivation: one node per production used, with
    the sub-derivations as children in the order of the right-hand side.

      expression  := application | abstraction | variable
      application := '(' expression expression ')'
      abstraction := ('λ' | '@') variable '.' expression
      variable    := SYMBOL *)
Inductive derives : list Token -> Node -> Prop :=
| derives_variable (t : Token) :
    type t = "SYMBOL" ->
    derives [t] (Variable_ (value t))
| derives_application (lp rp : Token) (ts1 ts2 : list Token) (n1 n2 : Node) :
    type lp = "(" ->
    derives ts1 n1 ->
    derives ts2 n2 ->
    type rp = ")" ->
    derives (lp :: ts1 ++ ts2 ++ [rp]) (Application n1 n2)
| derives_abstraction (lam x dot : Token) (ts : list Token) (n : Node) :
    opens_abstraction (type lam) = true ->
    type x = "SYMBOL" ->
    type dot = "." ->
    derives ts n ->
    derives (lam :: x :: dot :: ts) (Abstraction (Variable_ (value x)) n).

(** The [expected] texts that a call of [parse] can report. *)
Definition reported_by_parse : list string :=
  ["(, λ, @, or SYMBOL"; "SYMBOL"; "."; ")"].

(** [raises_within P m]: whenever the method [m] raises, the error and the
    parser state it leaves satisfy [P]. *)
Definition raises_within {L A : Type}
    (P : ParserError -> Parser L -> Prop) (m : M L A) : Prop :=
  forall (self : Parser L) (e : ParserError) (self' : Parser L),
    m self = (Raise e, self') -> P e self'.

(** [P] holds of the error that [_error expected] raises, in any state. *)
Definition error_within {L : Type}
    (P : ParserError -> Parser L -> Prop) (expected : string) : Prop :=
  forall self : Parser L,
    P {| expected := expected; found := type (token self) |} self.

(** ** Comparing two parser objects *)

(** A second token source over a fixed sequence: it keeps the whole sequence
    and a cursor into it. *)
Record CursorLexer : Type :=
  mkCursorLexer { source : list Token; position : nat; end_marker : Token }.

Definition CursorLexer_next (lx : CursorLexer) : Token * CursorLexer :=
  (nth (position lx) (source lx) (end_marker lx),
   {| source := source lx;
      position := S (position lx);
      end_marker := end_marker lx |}).

#[global] Instance CursorLexer_Lexer : Lexer CursorLexer :=
  {| next := CursorLexer_next |}.

(** Two lexers, possibly of different making, hand out the same tokens. *)
Definition same_stream {L1 L2 : Type} `{Lexer L1} `{Lexer L2}
    (lx1 : L1) (lx2 : L2) : Prop :=
  forall n : nat, nth_token n lx1 = nth_token n lx2.

(** Two parser objects that cannot be told apart by their tokens. *)
Definition same_view {L1 L2 : Type} `{Lexer L1} `{Lexer L2}
    (s1 : Parser L1) (s2 : Parser L2) : Prop :=
  token s1 = token s2 /\ same_stream (lexer s1) (lexer s2).

(** Two runs end alike: equal outcome (the same tree, node by node, or the
    same error) and indistinguishable parser objects. *)
Definition agree {L1 L2 : Type} `{Lexer L1} `{Lexer L2} {A : Type}
    (r1 : Outcome A * Parser L1) (r2 : Outcome A * Parser L2) : Prop :=
  fst r1 = fst r2 /\ same_view (snd r1) (snd r2).

Definition related {L1 L2 : Type} `{Lexer L1} `{Lexer L2} {A : Type}
    (m1 : M L1 A) (m2 : M L2 A) : Prop :=
  forall (s1 : Parser L1) (s2 : Parser L2),
    same_view s1 s2 -> agree (m1 s1) (m2 s2).

(** ** Measuring a run *)

(** The recursion budget was enough for this call. *)
Definition terminates {L A : Type} (m : M L A) (self : Parser L) : Prop :=
  fst (m self) <> Diverge.

(** [m'] ends as [m] does wherever the budget of [m] was enough. *)
Definition refines {L A : Type} (m m' : M L A) : Prop :=
  forall (self : Parser L) (o : Outcome A) (self' : Parser L),
    m self = (o, self') -> o <> Diverge -> m' self = (o, self').

(** [costs Inv potential a m]: the method [m] keeps [Inv] and raises the
    [potential] of the parser object by at most [a]. *)
Definition costs {L A : Type} (Inv : Parser L -> Prop)
    (potential : Parser L -> nat) (a : nat) (m : M L A) : Prop :=
  forall self : Parser L,
    Inv self ->
    Inv (snd (m self)) /\ potential (snd (m self)) <= potential self + a.

(** Tokens that can still make [_expression] call itself: those the lexer
    has not handed out, and the lookahead when it opens an application or an
    abstraction. *)
Definition depth_measure (self : Parser ListLexer) : nat :=
  length (pending (lexer self))
  + (if opener (type (token self)) then 1 else 0).

(** A lexer that counts the calls of [next] made on it. *)
Record Counted (L : Type) : Type := mkCounted { inner : L; pulls : nat }.

Definition Counted_next {L : Type} `{Lexer L} (c : Counted L)
  : Token * Counted L :=
  (fst (next (inner c)),
   {| inner := snd (next (inner c)); pulls := S (pulls c) |}).

#[global] Instance Counted_Lexer {L : Type} `{Lexer L} : Lexer (Counted L) :=
  {| next := Counted_next |}.

(** Calls of [next] so far, weighed against the tokens still to come. *)
Definition work_potential (self : Parser (Counted ListLexer)) : nat :=
  pulls (lexer self)
  + 3 * (length (pending (inner (lexer self)))
         + (if opener (type (token self)) then 1 else 0)).

(** The end marker of the list lexer under a parser object. *)
Definition ends_with (e : Token) (self : Parser ListLexer) : Prop :=
  eof (lexer self) = e.

Definition counted_ends_with (e : Token)
    (self : Parser (Counted ListLexer)) : Prop :=
  eof (inner (lexer self)) = e.

(** ** Trees and their tokens *)

(** The number of tokens in the text of a tree: one for a variable, the two
    parentheses around an application, and the introducer, the bound symbol
    and the dot of an abstraction. *)
Fixpoint token_count (n : Node) : nat :=
  match n with
  | Variable_ _ => 1
  | Application l r => 2 + token_count l + token_count r
  | Abstraction _ b => 3 + token_count b
  end.

(** Trees in which every [Abstraction] holds a [Variable] node as its bound
    variable. *)
Fixpoint well_formed (n : Node) : bool :=
  match n with
  | Variable_ _ => true
  | Application l r => well_formed l && well_formed r
  | Abstraction (Variable_ _) b => well_formed b
  | Abstraction _ _ => false
  end.

(** A token sequence that spells a tree, with "λ" as the introducer. *)
Fixpoint tokens_of (n : Node) : list Token :=
  match n with
  | Variable_ x => [SYMBOL x]
  | Application l r => LPAREN :: tokens_of l ++ tokens_of r ++ [RPAREN]
  | Abstraction (Variable_ x) b => LAMBDA :: SYMBOL x :: DOT :: tokens_of b
  | Abstraction _ _ => []
  end.

(** ** Tokens that the parser cannot tell apart *)

(** Same type, and the same value when the type is "SYMBOL". *)
Definition alike (t1 t2 : Token) : Prop :=
  type t1 = type t2 /\ (type t1 = "SYMBOL" -> value t1 = value t2).

Definition alike_stream {L1 L2 : Type} `{Lexer L1} `{Lexer L2}
    (lx1 : L1) (lx2 : L2) : Prop :=
  forall n : nat, alike (nth_token n lx1) (nth_token n lx2).

Definition alike_view {L1 L2 : Type} `{Lexer L1} `{Lexer L2}
    (s1 : Parser L1) (s2 : Parser L2) : Prop :=
  alike (token s1) (token s2) /\ alike_stream (lexer s1) (lexer s2).

Definition alike_run {L1 L2 : Type} `{Lexer L1} `{Lexer L2} {A : Type}
    (m1 : M L1 A) (m2 : M L2 A) : Prop :=
  forall (s1 : Parser L1) (s2 : Parser L2),
    alike_view s1 s2 ->
    fst (m1 s1) = fst (m2 s2) /\ alike_view (snd (m1 s1)) (snd (m2 s2)).

(** ** Where the parser stands in the stream *)

(** A parser object over a counting lexer that wraps the stream of [lx]: its
    lookahead is the token handed out last, and its lexer stands right after
    that token. *)
Definition tracks {L : Type} `{Lexer L} (lx : L)
    (self : Parser (Counted L)) : Prop :=
  1 <= pulls (lexer self)
  /\ token self = nth_token (pulls (lexer self) - 1) lx
  /\ forall n : nat,
       nth_token n (inner (lexer self))
       = nth_token (pulls (lexer self) + n) lx.

(** ** The first mismatch of a token sequence *)

(** [viable ts]: the tokens [ts] begin some sequence of the grammar. *)
Definition viable (ts : list Token) : Prop :=
  exists (rest : list Token) (n : Node), derives (ts ++ rest) n.

(** [first_mismatch ts t]: the tokens [ts] begin a sequence of the grammar
    without being one, and the token [t] after them is the first that no
    sequence of the grammar has in that place. *)
Definition first_mismatch (ts : list Token) (t : Token) : Prop :=
  viable ts /\ (forall n : Node, ~ derives ts n) /\ ~ viable (ts ++ [t]).

(** The token types that an [expected] text of the parser names: the four
    dispatch options for the text of [_expression], and otherwise the type
    that the text itself spells. *)
Definition acceptable_types (expected : string) : list string :=
  if expected =? "(, λ, @, or SYMBOL" then ["("; "λ"; "@"; "SYMBOL"]
  else [expected].

Definition accepts (expected ty : string) : bool :=
  existsb (String.eqb ty) (acceptable_types expected).

(** [passes self ts self']: the parser object [self'] is [self] after it
    moved over exactly the tokens [ts], one [_advance] per token, the first of
    them being the lookahead of [self]. *)
Fixpoint passes {L : Type} `{Lexer L}
    (self : Parser L) (ts : list Token) (self' : Parser L) : Prop :=
  match ts with
  | [] => self = self'
  | t :: ts' => token self = t /\ passes (Parser_init (lexer self)) ts' self'
  end.

(** [expects ts x]: the tokens [ts] stop inside a derivation of the grammar,
    at a place where the next token is required to have a type named by the
    text [x]. *)
Inductive expects : list Token -> string -> Prop :=
| expects_expression :
    expects [] "(, λ, @, or SYMBOL"
| expects_in_function (lp : Token) (ts : list Token) (x : string) :
    type lp = "(" ->
    expects ts x ->
    expects (lp :: ts) x
| expects_in_argument (lp : Token) (ts1 ts : list Token) (n1 : Node)
    (x : string) :
    type lp = "(" ->
    derives ts1 n1 ->
    expects ts x ->
    expects (lp :: ts1 ++ ts) x
| expects_close (lp : Token) (ts1 ts2 : list Token) (n1 n2 : Node) :
    type lp = "(" ->
    derives ts1 n1 ->
    derives ts2 n2 ->
    expects (lp :: ts1 ++ ts2) ")"
| expects_symbol (lam : Token) :
    opens_abstraction (type lam) = true ->
    expects [lam] "SYMBOL"
| expects_dot (lam x : Token) :
    opens_abstraction (type lam) = true ->
    type x = "SYMBOL" ->
    expects [lam; x] "."
| expects_in_body (lam x dot : Token) (ts : list Token) (y : string) :
    opens_abstraction (type lam) = true ->
    type x = "SYMBOL" ->
    type dot = "." ->
    expects ts y ->
    expects (lam :: x :: dot :: ts) y.

(** ** First facts about the primitives *)

Section Primitives.

Context {L : Type} `{Lexer L}.

Lemma Parser_init_eq (lx : L) :
  Parser_init lx = {| lexer := snd (next lx); token := fst (next lx) |}.
Proof. unfold Parser_init. destruct (next lx); reflexivity. Qed.

Lemma advance_eq (self : Parser L) :
  _advance self = (Return tt, Parser_init (lexer self)).
Proof. unfold _advance, Parser_init. destruct (next (lexer self)); reflexivity. Qed.

Lemma eat_match (prediction : string) (self : Parser L) :
  type (token self) = prediction ->
  _eat prediction self = (Return tt, Parser_init (lexer self)).
Proof.
  intros Hty. unfold _eat. rewrite (proj2 (String.eqb_eq _ _) Hty).
  apply advance_eq.
Qed.

Lemma eat_mismatch (prediction : string) (self : Parser L) :
  type (token self) <> prediction ->
  _eat prediction self =
    (Raise {| expected := prediction; found := type (token self) |}, self).
Proof.
  intros Hty. unfold _eat. rewrite (proj2 (String.eqb_neq _ _) Hty).
  reflexivity.
Qed.

Lemma variable_symbol (self : Parser L) :
  type (token self) = "SYMBOL" ->
  _variable self =
    (Return (Variable_ (value (token self))), Parser_init (lexer self)).
Proof.
  intros Hty. unfold _variable. rewrite Hty. simpl.
  unfold bind. rewrite advance_eq. reflexivity.
Qed.

Lemma expression_dispatch_fails (fuel : nat) (self : Parser L) :
  starts_expression (type (token self)) = false ->
  _expression (S fuel) self =
    (Raise {| expected := "(, λ, @, or SYMBOL"; found := type (token self) |},
     self).
Proof.
  unfold starts_expression, opens_application, opens_abstraction,
    opens_variable.
  intros Hty.
  apply orb_false_elim in Hty as [Hty Hsym].
  apply orb_false_elim in Hty as [Hpar Hlam].
  simpl. rewrite Hpar, Hlam, Hsym. reflexivity.
Qed.

(** What [_expression] does on each kind of lookahead, with the guards of
    the productions already decided. *)

Lemma opens_abstraction_not_paren (ty : string) :
  opens_abstraction ty = true -> (ty =? "(") = false.
Proof.
  unfold opens_abstraction. intros Hty.
  apply orb_true_iff in Hty as [Hty | Hty];
    apply String.eqb_eq in Hty; subst ty; reflexivity.
Qed.

Lemma expression_application_eq (fuel : nat) (self : Parser L) :
  type (token self) = "(" ->
  _expression (S fuel) self =
    (left_expression <- _expression fuel ;;
     right_expression <- _expression fuel ;;
     _eat ")" ;;
     ret (Application left_expression right_expression))
      (Parser_init (lexer self)).
Proof.
  intros Hty. simpl. unfold _application. rewrite Hty. simpl.
  unfold bind at 1. rewrite advance_eq. reflexivity.
Qed.

Lemma expression_abstraction_eq (fuel : nat) (self : Parser L) :
  opens_abstraction (type (token self)) = true ->
  _expression (S fuel) self =
    (variable <- _variable ;;
     _eat "." ;;
     body <- _expression fuel ;;
     ret (Abstraction variable body))
      (Parser_init (lexer self)).
Proof.
  intros Hty. simpl. rewrite (opens_abstraction_not_paren _ Hty).
  unfold opens_abstraction in Hty. rewrite Hty.
  unfold _abstraction. rewrite Hty.
  unfold bind at 1. rewrite advance_eq. reflexivity.
Qed.

Lemma expression_variable_eq (fuel : nat) (self : Parser L) :
  type (token self) = "SYMBOL" ->
  _expression (S fuel) self =
    (Return (Variable_ (value (token self))), Parser_init (lexer self)).
Proof.
  intros Hty. simpl. rewrite Hty. simpl. apply variable_symbol. exact Hty.
Qed.

(** The four lookahead cases of [_expression]. *)
Lemma dispatch_cases (ty : string) :
  ty = "(" \/ opens_abstraction ty = true \/ ty = "SYMBOL"
  \/ starts_expression ty = false.
Proof.
  unfold starts_expression, opens_application, opens_variable.
  destruct (String.eqb_spec ty "(") as [Hp | Hp]; [left; exact Hp|].
  destruct (opens_abstraction ty) eqn:Hl; [right; left; reflexivity|].
  destruct (String.eqb_spec ty "SYMBOL") as [Hs | Hs];
    [right; right; left; exact Hs|].
  right; right; right. reflexivity.
Qed.

End Primitives.

(** ** Rejected first tokens *)

(** C2.  When the first token handed out by the lexer has a type other than
    "(", "λ", "@" and "SYMBOL", [parse] raises the error whose [expected] is
    the text naming all four options and whose [found] is that type, and the
    parser object is left as it was built: nothing further was pulled from the
    lexer.  The lexer is arbitrary, so the empty stream, whose first token is
    the end marker, is included. *)
Theorem parse_rejects_first_token :
  forall (L : Type) (HL : Lexer L) (lx : L) (fuel : nat),
    starts_expression (type (fst (next lx))) = false ->
    parse (S fuel) (Parser_init lx) =
      (Raise {| expected := "(, λ, @, or SYMBOL";
                found := type (fst (next lx)) |},
       Parser_init lx)
    /\ lexer (snd (parse (S fuel) (Parser_init lx))) = snd (next lx).
Proof.
  intros L HL lx fuel Hty.
  assert (Htok : token (Parser_init lx) = fst (next lx))
    by (rewrite Parser_init_eq; reflexivity).
  unfold parse. rewrite expression_dispatch_fails by (rewrite Htok; exact Hty).
  rewrite Htok. split; [reflexivity|].
  simpl. rewrite Parser_init_eq. reflexivity.
Qed.

(** The empty stream: the first token is the end marker. *)
Lemma parse_rejects_first_token_witness :
  starts_expression (type (fst (next (mkListLexer [] EOF)))) = false
  /\ parse 1 (Parser_init (mkListLexer [] EOF)) =
       (Raise {| expected := "(, λ, @, or SYMBOL"; found := "EOF" |},
        {| lexer := mkListLexer [] EOF; token := EOF |}).
Proof.
  split; [reflexivity|].
  exact (proj1 (@parse_rejects_first_token ListLexer _ (mkListLexer [] EOF) 0
                  eq_refl)).
Defined.

(** ** Worked examples *)

(** C5.  The tokens "(", SYMBOL x, SYMBOL y, ")" parse to the application
    whose function position holds the variable x and whose argument position
    holds the variable y; with the two symbols exchanged the positions are
    exchanged as well. *)
Theorem parse_application_keeps_order :
  forall (x y : string) (e : Token) (fuel : nat),
    let after := {| lexer := mkListLexer [] e; token := e |} in
    parse (S (S fuel))
      (Parser_init (mkListLexer [LPAREN; SYMBOL x; SYMBOL y; RPAREN] e))
    = (Return (Application (Variable_ x) (Variable_ y)), after)
    /\
    parse (S (S fuel))
      (Parser_init (mkListLexer [LPAREN; SYMBOL y; SYMBOL x; RPAREN] e))
    = (Return (Application (Variable_ y) (Variable_ x)), after)
    /\
    parse 2 (Parser_init (mkListLexer [LPAREN; SYMBOL "x"; SYMBOL "y"; RPAREN] EOF))
    = (Return (Application (Variable_ "x") (Variable_ "y")),
       {| lexer := mkListLexer [] EOF; token := EOF |}).
Proof.
  intros x y e fuel after. repeat split; reflexivity.
Qed.

(** C7.  The tokens "(", SYMBOL x, SYMBOL y followed by an end marker whose
    type is not ")" make [parse] raise the error with [expected] = ")" and
    [found] = the end marker's type.  The end marker is still the lookahead
    afterwards and the lexer has been asked four times in all, once in
    [__init__] and once past each of the three tokens: the failing [_eat]
    pulled nothing.  In every parser state over every lexer, [_eat] on a
    lookahead of another type raises with that lookahead's type as [found]
    and leaves the parser object, lexer included, as it was. *)
Theorem parse_missing_close :
  forall (x y : string) (e : Token) (fuel : nat),
    type e <> ")" ->
    parse (S (S fuel)) (Parser_init (mkListLexer [LPAREN; SYMBOL x; SYMBOL y] e))
    = (Raise {| expected := ")"; found := type e |},
       {| lexer := mkListLexer [] e; token := e |})
    /\
    _eat ")" {| lexer := mkListLexer [] e; token := e |}
    = (Raise {| expected := ")"; found := type e |},
       {| lexer := mkListLexer [] e; token := e |})
    /\
    parse (S (S fuel))
      (Parser_init (mkCounted (mkListLexer [LPAREN; SYMBOL x; SYMBOL y] e) 0))
    = (Raise {| expected := ")"; found := type e |},
       {| lexer := mkCounted (mkListLexer [] e) 4; token := e |})
    /\
    (forall (L : Type) (HL : Lexer L) (self : Parser L) (prediction : string),
       type (token self) <> prediction ->
       _eat prediction self
       = (Raise {| expected := prediction; found := type (token self) |},
          self)).
Proof.
  intros x y e fuel Hty.
  assert (Heat : _eat ")" {| lexer := mkListLexer [] e; token := e |}
                 = (Raise {| expected := ")"; found := type e |},
                    {| lexer := mkListLexer [] e; token := e |}))
    by (apply (eat_mismatch (L := ListLexer)); exact Hty).
  assert (Heatc : _eat ")" {| lexer := mkCounted (mkListLexer [] e) 4;
                              token := e |}
                  = (Raise {| expected := ")"; found := type e |},
                     {| lexer := mkCounted (mkListLexer [] e) 4;
                        token := e |}))
    by (apply (eat_mismatch (L := Counted ListLexer)); exact Hty).
  split; [|split; [exact Heat|split]].
  - unfold parse. cbn -[_eat]. unfold bind. cbn -[_eat].
    rewrite Heat. reflexivity.
  - unfold parse. cbn -[_eat]. unfold bind. cbn -[_eat].
    rewrite Heatc. reflexivity.
  - intros L HL self prediction Hne. apply eat_mismatch. exact Hne.
Qed.

Lemma parse_missing_close_witness :
  type EOF <> ")"
  /\ parse 2 (Parser_init (mkListLexer [LPAREN; SYMBOL "x"; SYMBOL "y"] EOF))
     = (Raise {| expected := ")"; found := "EOF" |},
        {| lexer := mkListLexer [] EOF; token := EOF |})
  /\ parse 2
       (Parser_init
          (mkCounted (mkListLexer [LPAREN; SYMBOL "x"; SYMBOL "y"] EOF) 0))
     = (Raise {| expected := ")"; found := "EOF" |},
        {| lexer := mkCounted (mkListLexer [] EOF) 4; token := EOF |})
  /\ _eat ")" {| lexer := mkCursorLexer [LPAREN; DOT; RPAREN] 2 EOF;
                 token := DOT |}
     = (Raise {| expected := ")"; found := "." |},
        {| lexer := mkCursorLexer [LPAREN; DOT; RPAREN] 2 EOF;
           token := DOT |}).
Proof.
  assert (Hty : type EOF <> ")") by (simpl; discriminate).
  assert (Hdot : type DOT <> ")") by (simpl; discriminate).
  split; [exact Hty|]. split; [|split].
  - exact (proj1 (@parse_missing_close "x" "y" EOF 0 Hty)).
  - exact (proj1 (proj2 (proj2 (@parse_missing_close "x" "y" EOF 0 Hty)))).
  - exact (proj2 (proj2 (proj2 (@parse_missing_close "x" "y" EOF 0 Hty)))
             CursorLexer _
             {| lexer := mkCursorLexer [LPAREN; DOT; RPAREN] 2 EOF;
                token := DOT |} ")" Hdot).
Defined.

(** C6.  A leading token of type "λ" and a leading token of type "@" are
    interchangeable: over the same remaining tokens [parse] ends in the same
    outcome and the same parser state.  With either spelling the tokens for
    λx.x parse to the abstraction that binds the variable x and has the
    variable x as its body. *)
Theorem lambda_spellings_agree :
  forall (t1 t2 : Token) (ts : list Token) (e : Token) (fuel : nat),
    opens_abstraction (type t1) = true ->
    opens_abstraction (type t2) = true ->
    parse (S fuel) (Parser_init (mkListLexer (t1 :: ts) e))
    = parse (S fuel) (Parser_init (mkListLexer (t2 :: ts) e))
    /\
    parse (S (S fuel))
      (Parser_init (mkListLexer [t1; SYMBOL "x"; DOT; SYMBOL "x"] e))
    = (Return (Abstraction (Variable_ "x") (Variable_ "x")),
       {| lexer := mkListLexer [] e; token := e |}).
Proof.
  intros t1 t2 ts e fuel H1 H2. unfold parse. split.
  - rewrite !expression_abstraction_eq by (simpl; assumption).
    reflexivity.
  - rewrite expression_abstraction_eq by (simpl; assumption).
    reflexivity.
Qed.

Lemma lambda_spellings_agree_witness :
  opens_abstraction (type LAMBDA) = true
  /\ opens_abstraction (type AT) = true
  /\ parse 2 (Parser_init (mkListLexer [LAMBDA; SYMBOL "x"; DOT; SYMBOL "x"] EOF))
     = parse 2 (Parser_init (mkListLexer [AT; SYMBOL "x"; DOT; SYMBOL "x"] EOF))
  /\ parse 2 (Parser_init (mkListLexer [AT; SYMBOL "x"; DOT; SYMBOL "x"] EOF))
     = (Return (Abstraction (Variable_ "x") (Variable_ "x")),
        {| lexer := mkListLexer [] EOF; token := EOF |}).
Proof.
  split; [reflexivity|]. split; [reflexivity|]. split.
  - exact (proj1 (@lambda_spellings_agree LAMBDA AT
                    [SYMBOL "x"; DOT; SYMBOL "x"] EOF 1 eq_refl eq_refl)).
  - exact (proj2 (@lambda_spellings_agree AT LAMBDA
                    [SYMBOL "x"; DOT; SYMBOL "x"] EOF 0 eq_refl eq_refl)).
Defined.

(** ** What a raised error looks like *)

Section RaiseInvariant.

Context {L : Type} `{Lexer L}.
Variable P : ParserError -> Parser L -> Prop.

Lemma raises_within_ret {A} (a : A) : raises_within P (ret a).
Proof. intros self e self' Heq. discriminate Heq. Qed.

Lemma raises_within_advance : raises_within P _advance.
Proof.
  intros self e self' Heq. rewrite advance_eq in Heq. discriminate Heq.
Qed.

Lemma raises_within_error {A} (x : string) :
  error_within P x -> raises_within P (@_error L A x).
Proof.
  intros Hx self e self' Heq. unfold _error, raise in Heq.
  inversion Heq; subst. apply Hx.
Qed.

Lemma raises_within_bind {A B} (m : M L A) (k : A -> M L B) :
  raises_within P m ->
  (forall a, raises_within P (k a)) ->
  raises_within P (bind m k).
Proof.
  intros Hm Hk self e self' Heq. unfold bind in Heq.
  destruct (m self) as [[a | e0 |] s1] eqn:Hms.
  - exact (Hk a s1 e self' Heq).
  - inversion Heq; subst. exact (Hm self e self' Hms).
  - discriminate Heq.
Qed.

Lemma raises_within_eat (x : string) :
  error_within P x -> raises_within P (_eat x).
Proof.
  intros Hx self e self' Heq. unfold _eat in Heq.
  destruct (type (token self) =? x).
  - eapply raises_within_advance; exact Heq.
  - eapply (raises_within_error Hx); exact Heq.
Qed.

Lemma raises_within_variable :
  error_within P "SYMBOL" -> raises_within P _variable.
Proof.
  intros Hx self e self' Heq. unfold _variable in Heq.
  destruct (type (token self) =? "SYMBOL").
  - revert Heq. apply raises_within_bind.
    + apply raises_within_advance.
    + intros _. apply raises_within_ret.
  - eapply (raises_within_error Hx); exact Heq.
Qed.

Hypothesis P_dispatch : error_within P "(, λ, @, or SYMBOL".
Hypothesis P_symbol : error_within P "SYMBOL".
Hypothesis P_dot : error_within P ".".
Hypothesis P_close : error_within P ")".

Lemma raises_within_expression (fuel : nat) :
  raises_within P (_expression fuel).
Proof.
  induction fuel as [|fuel IH]; intros self e self' Heq.
  - discriminate Heq.
  - destruct (dispatch_cases (type (token self)))
      as [Hty | [Hty | [Hty | Hty]]].
    + rewrite (expression_application_eq _ _ Hty) in Heq.
      revert Heq. apply raises_within_bind; [exact IH|]. intros l.
      apply raises_within_bind; [exact IH|]. intros r.
      apply raises_within_bind; [apply raises_within_eat; exact P_close|].
      intros _. apply raises_within_ret.
    + rewrite (expression_abstraction_eq _ _ Hty) in Heq.
      revert Heq.
      apply raises_within_bind;
        [apply raises_within_variable; exact P_symbol|]. intros v.
      apply raises_within_bind; [apply raises_within_eat; exact P_dot|].
      intros _.
      apply raises_within_bind; [exact IH|]. intros b.
      apply raises_within_ret.
    + rewrite (expression_variable_eq _ _ Hty) in Heq. discriminate Heq.
    + rewrite (expression_dispatch_fails _ _ Hty) in Heq.
      inversion Heq; subst. apply P_dispatch.
Qed.

End RaiseInvariant.

(** A sub-call that raises ends the calling production with the same error
    in the same state: the source has no handler. *)
Lemma raise_propagates {L A B} (m : M L A) (k : A -> M L B)
    (self self' : Parser L) (e : ParserError) :
  m self = (Raise e, self') -> bind m k self = (Raise e, self').
Proof. intros Hm. unfold bind. rewrite Hm. reflexivity. Qed.

(** Every error of [_expression]: raised by [_error] in the very state the
    call ends in, with one of four [expected] texts. *)
Lemma expression_raise_inv {L} `{Lexer L} (fuel : nat)
    (self self' : Parser L) (e : ParserError) :
  _expression fuel self = (Raise e, self') ->
  found e = type (token self') /\ In (expected e) reported_by_parse.
Proof.
  apply (raises_within_expression
           (P := fun e s => found e = type (token s)
                            /\ In (expected e) reported_by_parse));
    intros s; (split; [reflexivity | simpl; tauto]).
Qed.

(** C10.  An error that comes out of [parse] has one of the [expected] texts
    "(, λ, @, or SYMBOL", "SYMBOL", "." and ")".  The texts "(" and "λ or @"
    of the leading-token branches of [_application] and [_abstraction] never
    occur: [_expression] enters those productions only on a lookahead that
    passes their first test. *)
Theorem parse_expected_vocabulary :
  forall (L : Type) (HL : Lexer L) (fuel : nat)
         (self self' : Parser L) (e : ParserError),
    parse fuel self = (Raise e, self') ->
    In (expected e) ["(, λ, @, or SYMBOL"; "SYMBOL"; "."; ")"]
    /\ expected e <> "("
    /\ expected e <> "λ or @".
Proof.
  intros L HL fuel self self' e Heq.
  destruct (expression_raise_inv _ _ Heq) as [_ Hin].
  split; [exact Hin|].
  simpl in Hin.
  split; intros Hbad; rewrite Hbad in Hin;
    repeat (destruct Hin as [Hin | Hin]; [discriminate Hin|]); exact Hin.
Qed.

Lemma parse_expected_vocabulary_witness :
  let self := Parser_init (mkListLexer [LAMBDA; LPAREN] EOF) in
  let self' := {| lexer := mkListLexer [] EOF; token := LPAREN |} in
  let e := {| expected := "SYMBOL"; found := "(" |} in
  parse 1 self = (Raise e, self')
  /\ In (expected e) ["(, λ, @, or SYMBOL"; "SYMBOL"; "."; ")"].
Proof.
  intros self self' e.
  assert (Hrun : parse 1 self = (Raise e, self')) by reflexivity.
  split; [exact Hrun|].
  exact (proj1 (@parse_expected_vocabulary ListLexer _ 1 self self' e Hrun)).
Defined.

(** ** Sequences of the grammar are accepted *)

Section Feeding.

Context {L : Type} `{Lexer L}.

Lemma token_init (lx : L) : token (Parser_init lx) = fst (next lx).
Proof. rewrite Parser_init_eq. reflexivity. Qed.

Lemma lexer_init (lx : L) : lexer (Parser_init lx) = snd (next lx).
Proof. rewrite Parser_init_eq. reflexivity. Qed.

Lemma feeds_app (ts1 ts2 : list Token) :
  forall lx lx' : L,
    feeds lx (ts1 ++ ts2) lx' ->
    exists mid, feeds lx ts1 mid /\ feeds mid ts2 lx'.
Proof.
  induction ts1 as [|t ts1 IH]; intros lx lx' Hfeed; simpl in *.
  - exists lx. split; [reflexivity | exact Hfeed].
  - destruct Hfeed as [Ht Hrest].
    destruct (IH _ _ Hrest) as [mid [H1 H2]].
    exists mid. repeat split; assumption.
Qed.

End Feeding.

Lemma feeds_ListLexer (ts rest : list Token) (e : Token) :
  feeds (mkListLexer (ts ++ rest) e) ts (mkListLexer rest e).
Proof.
  induction ts as [|t ts IH]; simpl.
  - reflexivity.
  - split; [reflexivity | exact IH].
Qed.

(** The parser follows a derivation production by production, over any
    lexer that hands out the derived tokens; it stops in the state of a parser
    freshly built on what the lexer has left. *)
Lemma expression_accepts (ts : list Token) (n : Node) :
  derives ts n ->
  forall (L : Type) (HL : Lexer L) (lx lx' : L) (fuel : nat),
    feeds lx ts lx' ->
    height n <= fuel ->
    _expression fuel (Parser_init lx) = (Return n, Parser_init lx').
Proof.
  induction 1 as [t Ht
                 | lp rp ts1 ts2 n1 n2 Hlp _ IH1 _ IH2 Hrp
                 | lam x dot ts n Hlam Hx Hdot _ IH];
    intros L HL lx lx' fuel Hfeed Hfuel;
    (destruct fuel as [|fuel]; [simpl in Hfuel; lia|]).
  - destruct Hfeed as [Hfst Hsnd]. simpl in Hsnd.
    rewrite expression_variable_eq by (rewrite token_init, Hfst; exact Ht).
    rewrite token_init, lexer_init, Hfst, Hsnd. reflexivity.
  - destruct Hfeed as [Hfst Hrest].
    apply feeds_app in Hrest as [m1 [Hf1 Hrest]].
    apply feeds_app in Hrest as [m2 [Hf2 [Hfrp Hend]]].
    simpl in Hend, Hfuel.
    rewrite expression_application_eq by (rewrite token_init, Hfst; exact Hlp).
    rewrite lexer_init. unfold bind.
    rewrite (IH1 _ _ _ _ fuel Hf1) by lia.
    rewrite (IH2 _ _ _ _ fuel Hf2) by lia.
    rewrite eat_match by (rewrite token_init, Hfrp; exact Hrp).
    rewrite lexer_init, Hend. reflexivity.
  - destruct Hfeed as [Hfst [Hfx [Hfdot Hrest]]].
    simpl in Hfuel.
    rewrite expression_abstraction_eq by (rewrite token_init, Hfst; exact Hlam).
    rewrite lexer_init. unfold bind.
    rewrite variable_symbol by (rewrite token_init, Hfx; exact Hx).
    rewrite token_init, lexer_init, Hfx.
    rewrite eat_match by (rewrite token_init, Hfdot; exact Hdot).
    rewrite lexer_init.
    rewrite (IH _ _ _ _ fuel Hrest) by lia.
    reflexivity.
Qed.

(** C1.  For a token sequence derived from the grammar, [parse] returns,
    without raising, the tree of the derivation: a [Variable] for the
    variable production, an [Application] with the trees of the two
    sub-expressions in order, an [Abstraction] with the bound variable and the
    tree of the body.  A budget of nested calls equal to the height of the
    derivation is enough. *)
Theorem parse_accepts_derivation :
  forall (ts : list Token) (n : Node) (e : Token) (fuel : nat),
    derives ts n ->
    height n <= fuel ->
    parse fuel (Parser_init (mkListLexer ts e))
    = (Return n, {| lexer := mkListLexer [] e; token := e |}).
Proof.
  intros ts n e fuel Hder Hfuel. unfold parse.
  rewrite (@expression_accepts ts n Hder ListLexer _ (mkListLexer ts e)
             (mkListLexer [] e) fuel); [reflexivity | | exact Hfuel].
  rewrite <- (app_nil_r ts) at 1. apply feeds_ListLexer.
Qed.

(** C3.  [parse] does not look for the end of the stream.  When a prefix of
    the tokens is derived from the grammar, [parse] returns the tree of that
    prefix whatever follows it; the parser is left as one freshly built on the
    trailing tokens, none of which has been examined. *)
Theorem parse_ignores_trailing_tokens :
  forall (ts rest : list Token) (n : Node) (e : Token) (fuel : nat),
    derives ts n ->
    height n <= fuel ->
    parse fuel (Parser_init (mkListLexer (ts ++ rest) e))
    = (Return n, Parser_init (mkListLexer rest e))
    /\ fst (parse fuel (Parser_init (mkListLexer (ts ++ rest) e)))
       = fst (parse fuel (Parser_init (mkListLexer ts e))).
Proof.
  intros ts rest n e fuel Hder Hfuel.
  assert (Hrun : parse fuel (Parser_init (mkListLexer (ts ++ rest) e))
                 = (Return n, Parser_init (mkListLexer rest e))).
  { unfold parse.
    apply (expression_accepts Hder); [apply feeds_ListLexer | exact Hfuel]. }
  split; [exact Hrun|].
  rewrite Hrun.
  assert (Hbare : parse fuel (Parser_init (mkListLexer ts e))
                  = (Return n, Parser_init (mkListLexer [] e))).
  { unfold parse. apply (expression_accepts Hder); [|exact Hfuel].
    rewrite <- (app_nil_r ts) at 1. apply feeds_ListLexer. }
  rewrite Hbare. reflexivity.
Qed.

Lemma sample_derivation :
  derives [LAMBDA; SYMBOL "f"; DOT; LPAREN; SYMBOL "f"; SYMBOL "x"; RPAREN]
    (Abstraction (Variable_ "f") (Application (Variable_ "f") (Variable_ "x"))).
Proof.
  apply (@derives_abstraction LAMBDA (SYMBOL "f") DOT);
    [reflexivity | reflexivity | reflexivity |].
  apply (@derives_application LPAREN RPAREN [SYMBOL "f"] [SYMBOL "x"]);
    [reflexivity | | | reflexivity].
  - apply (@derives_variable (SYMBOL "f")). reflexivity.
  - apply (@derives_variable (SYMBOL "x")). reflexivity.
Defined.

Lemma parse_accepts_derivation_witness :
  parse 3
    (Parser_init
       (mkListLexer
          [LAMBDA; SYMBOL "f"; DOT; LPAREN; SYMBOL "f"; SYMBOL "x"; RPAREN] EOF))
  = (Return (Abstraction (Variable_ "f")
               (Application (Variable_ "f") (Variable_ "x"))),
     {| lexer := mkListLexer [] EOF; token := EOF |}).
Proof.
  apply (@parse_accepts_derivation _ _ EOF 3 sample_derivation).
  simpl. lia.
Defined.

Lemma parse_ignores_trailing_tokens_witness :
  parse 3
    (Parser_init
       (mkListLexer
          ([LAMBDA; SYMBOL "f"; DOT; LPAREN; SYMBOL "f"; SYMBOL "x"; RPAREN]
             ++ [RPAREN; DOT; LAMBDA]) EOF))
  = (Return (Abstraction (Variable_ "f")
               (Application (Variable_ "f") (Variable_ "x"))),
     {| lexer := mkListLexer [DOT; LAMBDA] EOF; token := RPAREN |}).
Proof.
  refine (proj1 (@parse_ignores_trailing_tokens _ [RPAREN; DOT; LAMBDA] _ EOF 3
                   sample_derivation _)).
  simpl. lia.
Defined.

(** ** Two parsers over the same tokens *)

Section TwoParsers.

Context {L1 L2 : Type} `{Lexer L1} `{Lexer L2}.

Lemma same_stream_next (lx1 : L1) (lx2 : L2) :
  same_stream lx1 lx2 ->
  fst (next lx1) = fst (next lx2)
  /\ same_stream (snd (next lx1)) (snd (next lx2)).
Proof.
  intros Hs. split.
  - exact (Hs 0).
  - intros n. exact (Hs (S n)).
Qed.

Lemma same_view_init (lx1 : L1) (lx2 : L2) :
  same_stream lx1 lx2 -> same_view (Parser_init lx1) (Parser_init lx2).
Proof.
  intros Hs. apply same_stream_next in Hs as [Hfst Hsnd].
  unfold same_view. rewrite !token_init, !lexer_init. split; assumption.
Qed.

Lemma related_ret {A} (a : A) :
  related (ret (L := L1) a) (ret (L := L2) a).
Proof. intros s1 s2 Hv. split; [reflexivity | exact Hv]. Qed.

Lemma related_advance : related (_advance (L := L1)) (_advance (L := L2)).
Proof.
  intros s1 s2 [_ Hs]. rewrite !advance_eq.
  split; [reflexivity | apply same_view_init; exact Hs].
Qed.

Lemma related_error {A} (x : string) :
  related (@_error L1 A x) (@_error L2 A x).
Proof.
  intros s1 s2 Hv. unfold _error, raise. split; [|exact Hv].
  simpl. destruct Hv as [Ht _]. rewrite Ht. reflexivity.
Qed.

Lemma related_bind {A B} (m1 : M L1 A) (m2 : M L2 A)
    (k1 : A -> M L1 B) (k2 : A -> M L2 B) :
  related m1 m2 ->
  (forall a, related (k1 a) (k2 a)) ->
  related (bind m1 k1) (bind m2 k2).
Proof.
  intros Hm Hk s1 s2 Hv. unfold bind.
  destruct (Hm s1 s2 Hv) as [Hout Hv'].
  destruct (m1 s1) as [o1 t1], (m2 s2) as [o2 t2]. simpl in Hout, Hv'.
  subst o2. destruct o1 as [a | e |].
  - apply Hk. exact Hv'.
  - split; [reflexivity | exact Hv'].
  - split; [reflexivity | exact Hv'].
Qed.

Lemma related_eat (x : string) :
  related (_eat (L := L1) x) (_eat (L := L2) x).
Proof.
  intros s1 s2 Hv. unfold _eat.
  destruct Hv as [Ht Hs]. rewrite <- Ht.
  destruct (type (token s1) =? x).
  - apply related_advance. split; assumption.
  - apply related_error. split; assumption.
Qed.

Lemma related_variable : related (_variable (L := L1)) (_variable (L := L2)).
Proof.
  intros s1 s2 Hv. unfold _variable.
  destruct Hv as [Ht Hs]. rewrite <- Ht.
  destruct (type (token s1) =? "SYMBOL").
  - apply related_bind; [apply related_advance | | split; assumption].
    intros _. apply related_ret.
  - apply related_error. split; assumption.
Qed.

Lemma related_application (e1 : M L1 Node) (e2 : M L2 Node) :
  related e1 e2 -> related (_application e1) (_application e2).
Proof.
  intros He s1 s2 Hv. unfold _application.
  destruct Hv as [Ht Hs]. rewrite <- Ht.
  destruct (type (token s1) =? "(").
  - apply related_bind; [apply related_advance | | split; assumption].
    intros _. apply related_bind; [exact He|]. intros l.
    apply related_bind; [exact He|]. intros r.
    apply related_bind; [apply related_eat|]. intros _.
    apply related_ret.
  - apply related_error. split; assumption.
Qed.

Lemma related_abstraction (e1 : M L1 Node) (e2 : M L2 Node) :
  related e1 e2 -> related (_abstraction e1) (_abstraction e2).
Proof.
  intros He s1 s2 Hv. unfold _abstraction.
  destruct Hv as [Ht Hs]. rewrite <- Ht.
  destruct ((type (token s1) =? "λ") || (type (token s1) =? "@")).
  - apply related_bind; [apply related_advance | | split; assumption].
    intros _. apply related_bind; [apply related_variable|]. intros v.
    apply related_bind; [apply related_eat|]. intros _.
    apply related_bind; [exact He|]. intros b.
    apply related_ret.
  - apply related_error. split; assumption.
Qed.

Lemma related_expression (fuel : nat) :
  related (_expression (L := L1) fuel) (_expression (L := L2) fuel).
Proof.
  induction fuel as [|fuel IH]; intros s1 s2 Hv.
  - split; [reflexivity | exact Hv].
  - simpl. pose proof Hv as [Ht Hs]. rewrite <- Ht.
    destruct (type (token s1) =? "(").
    { apply related_application; assumption. }
    destruct ((type (token s1) =? "λ") || (type (token s1) =? "@")).
    { apply related_abstraction; assumption. }
    destruct (type (token s1) =? "SYMBOL").
    { apply related_variable; assumption. }
    apply related_error; assumption.
Qed.

End TwoParsers.

Lemma nth_token_ListLexer (n : nat) :
  forall (ts : list Token) (e : Token),
    nth_token n (mkListLexer ts e) = nth n ts e.
Proof.
  induction n as [|n IH]; intros ts e.
  - destruct ts; reflexivity.
  - destruct ts as [|t ts]; simpl.
    + unfold ListLexer_next. simpl. rewrite IH. destruct n; reflexivity.
    + unfold ListLexer_next. simpl. apply IH.
Qed.

Lemma nth_token_CursorLexer (n : nat) :
  forall (ts : list Token) (p : nat) (e : Token),
    nth_token n (mkCursorLexer ts p e) = nth (p + n) ts e.
Proof.
  induction n as [|n IH]; intros ts p e; simpl.
  - rewrite Nat.add_0_r. reflexivity.
  - unfold CursorLexer_next. simpl. rewrite IH.
    f_equal. lia.
Qed.

(** The two token sources over a sequence hand out the same tokens. *)
Lemma same_stream_List_Cursor (ts : list Token) (e : Token) :
  same_stream (mkListLexer ts e) (mkCursorLexer ts 0 e).
Proof.
  intros n. rewrite nth_token_ListLexer, nth_token_CursorLexer. reflexivity.
Qed.

(** C8.  Two parser objects built on two token sources that hand out the same
    tokens end [parse] with equal outcomes: the same tree, node kind by node
    kind and name by name, or the same [expected] and [found]; and they stop
    at the same lookahead.  The sources need not be the same object, nor of
    the same making. *)
Theorem parse_deterministic :
  forall (L1 L2 : Type) (HL1 : Lexer L1) (HL2 : Lexer L2)
         (lx1 : L1) (lx2 : L2) (fuel : nat),
    same_stream lx1 lx2 ->
    fst (parse fuel (Parser_init lx1)) = fst (parse fuel (Parser_init lx2))
    /\ token (snd (parse fuel (Parser_init lx1)))
       = token (snd (parse fuel (Parser_init lx2))).
Proof.
  intros L1 L2 HL1 HL2 lx1 lx2 fuel Hs.
  destruct (related_expression fuel (same_view_init Hs)) as [Hout [Htok _]].
  split; assumption.
Qed.

Lemma parse_deterministic_witness :
  let ts := [LPAREN; SYMBOL "x"; LAMBDA; SYMBOL "y"; DOT; SYMBOL "y"; RPAREN] in
  same_stream (mkListLexer ts EOF) (mkCursorLexer ts 0 EOF)
  /\ fst (parse 3 (Parser_init (mkListLexer ts EOF)))
     = fst (parse 3 (Parser_init (mkCursorLexer ts 0 EOF)))
  /\ fst (parse 3 (Parser_init (mkListLexer ts EOF)))
     = Return (Application (Variable_ "x")
                 (Abstraction (Variable_ "y") (Variable_ "y"))).
Proof.
  intros ts.
  split; [apply same_stream_List_Cursor|].
  split; [|reflexivity].
  exact (proj1 (@parse_deterministic ListLexer CursorLexer _ _
                  (mkListLexer ts EOF) (mkCursorLexer ts 0 EOF) 3
                  (same_stream_List_Cursor ts EOF))).
Defined.

(** ** Bounding a run by a potential *)

Section Cost.

Context {L : Type} `{Lexer L}.
Variable Inv : Parser L -> Prop.
Variable potential : Parser L -> nat.
Variable a : nat.

Hypothesis advance_cost :
  forall self : Parser L,
    Inv self ->
    Inv (Parser_init (lexer self))
    /\ potential (Parser_init (lexer self)) <= potential self + a.

Hypothesis opener_drop :
  forall self : Parser L,
    Inv self ->
    opener (type (token self)) = true ->
    potential (Parser_init (lexer self)) + 2 * a <= potential self.

Lemma costs_ret {A} (x : A) : costs Inv potential 0 (ret x).
Proof. intros self HI. simpl. split; [exact HI | lia]. Qed.

Lemma costs_error {A} (x : string) : costs Inv potential 0 (@_error L A x).
Proof. intros self HI. simpl. split; [exact HI | lia]. Qed.

Lemma costs_weaken {A} (m : M L A) (b c : nat) :
  b <= c -> costs Inv potential b m -> costs Inv potential c m.
Proof.
  intros Hbc Hm self HI. destruct (Hm self HI) as [HI' Hle].
  split; [exact HI' | lia].
Qed.

Lemma costs_advance : costs Inv potential a _advance.
Proof. intros self HI. rewrite advance_eq. simpl. apply advance_cost, HI. Qed.

Lemma costs_bind {A B} (m : M L A) (k : A -> M L B) (b c : nat) :
  costs Inv potential b m ->
  (forall x, costs Inv potential c (k x)) ->
  costs Inv potential (b + c) (bind m k).
Proof.
  intros Hm Hk self HI. unfold bind.
  destruct (Hm self HI) as [HI1 Hle1].
  destruct (m self) as [[x | e |] s1]; simpl in *.
  - destruct (Hk x s1 HI1) as [HI2 Hle2]. split; [exact HI2 | lia].
  - split; [exact HI1 | lia].
  - split; [exact HI1 | lia].
Qed.

Lemma costs_eat (x : string) : costs Inv potential a (_eat x).
Proof.
  intros self HI. unfold _eat. destruct (type (token self) =? x).
  - apply costs_advance, HI.
  - apply (costs_weaken (b := 0)); [lia | apply costs_error | exact HI].
Qed.

Lemma costs_variable : costs Inv potential a _variable.
Proof.
  intros self HI. unfold _variable.
  destruct (type (token self) =? "SYMBOL").
  - apply (costs_weaken (b := a + 0)); [lia | | exact HI].
    apply costs_bind; [apply costs_advance|]. intros _. apply costs_ret.
  - apply (costs_weaken (b := 0)); [lia | apply costs_error | exact HI].
Qed.

Lemma costs_expression (fuel : nat) :
  costs Inv potential a (_expression fuel).
Proof.
  induction fuel as [|fuel IH]; intros self HI.
  - simpl. split; [exact HI | lia].
  - destruct (advance_cost HI) as [HI1 _].
    destruct (dispatch_cases (type (token self)))
      as [Hty | [Hty | [Hty | Hty]]].
    + rewrite (expression_application_eq _ _ Hty).
      assert (Hop : opener (type (token self)) = true)
        by (rewrite Hty; reflexivity).
      pose proof (opener_drop HI Hop) as Hdrop.
      assert (Hchain : costs Inv potential (a + (a + (a + 0)))
                (left_expression <- _expression fuel ;;
                 right_expression <- _expression fuel ;;
                 _eat ")" ;;
                 ret (Application left_expression right_expression))).
      { apply costs_bind; [exact IH|]. intros l.
        apply costs_bind; [exact IH|]. intros r.
        apply costs_bind; [apply costs_eat|]. intros _. apply costs_ret. }
      destruct (Hchain _ HI1) as [HI' Hle]. split; [exact HI' | lia].
    + rewrite (expression_abstraction_eq _ _ Hty).
      assert (Hop : opener (type (token self)) = true)
        by (unfold opener; rewrite Hty; apply orb_true_r).
      pose proof (opener_drop HI Hop) as Hdrop.
      assert (Hchain : costs Inv potential (a + (a + (a + 0)))
                (variable <- _variable ;;
                 _eat "." ;;
                 body <- _expression fuel ;;
                 ret (Abstraction variable body))).
      { apply costs_bind; [apply costs_variable|]. intros v.
        apply costs_bind; [apply costs_eat|]. intros _.
        apply costs_bind; [exact IH|]. intros b. apply costs_ret. }
      destruct (Hchain _ HI1) as [HI' Hle]. split; [exact HI' | lia].
    + rewrite (expression_variable_eq _ _ Hty). simpl.
      apply advance_cost, HI.
    + rewrite (expression_dispatch_fails _ _ Hty). simpl.
      split; [exact HI | lia].
Qed.

End Cost.

(** ** Termination over a finite token sequence *)

Section Budget.

Context {L : Type} `{Lexer L}.

Lemma terminates_bind {A B} (m : M L A) (k : A -> M L B) (self : Parser L) :
  terminates m self ->
  (forall x self', m self = (Return x, self') -> terminates (k x) self') ->
  terminates (bind m k) self.
Proof.
  unfold terminates, bind. intros Hm Hk.
  destruct (m self) as [[x | e |] s1]; simpl in *.
  - apply Hk. reflexivity.
  - discriminate.
  - contradiction Hm. reflexivity.
Qed.

Lemma terminates_ret {A} (x : A) (self : Parser L) : terminates (ret x) self.
Proof. unfold terminates. simpl. discriminate. Qed.

Lemma terminates_eat (x : string) (self : Parser L) :
  terminates (_eat x) self.
Proof.
  unfold terminates, _eat. destruct (type (token self) =? x).
  - rewrite advance_eq. simpl. discriminate.
  - simpl. discriminate.
Qed.

Lemma terminates_variable (self : Parser L) : terminates _variable self.
Proof.
  unfold terminates, _variable. destruct (type (token self) =? "SYMBOL").
  - unfold bind. rewrite advance_eq. simpl. discriminate.
  - simpl. discriminate.
Qed.

Lemma refines_refl {A} (m : M L A) : refines m m.
Proof. intros self o self' Heq _. exact Heq. Qed.

Lemma refines_bind {A B} (m m' : M L A) (k k' : A -> M L B) :
  refines m m' ->
  (forall x, refines (k x) (k' x)) ->
  refines (bind m k) (bind m' k').
Proof.
  intros Hm Hk self o self' Heq Ho. unfold bind in *.
  destruct (m self) as [[x | e |] s1] eqn:Hms.
  - rewrite (Hm _ _ _ Hms) by discriminate. exact (Hk x _ _ _ Heq Ho).
  - rewrite (Hm _ _ _ Hms) by discriminate. exact Heq.
  - inversion Heq; subst. contradiction Ho. reflexivity.
Qed.

(** A larger budget changes nothing once the budget is enough. *)
Lemma expression_fuel_S (fuel : nat) :
  refines (_expression fuel) (_expression (S fuel)).
Proof.
  induction fuel as [|fuel IH]; intros self o self' Heq Ho.
  - simpl in Heq. inversion Heq; subst. contradiction Ho. reflexivity.
  - destruct (dispatch_cases (type (token self)))
      as [Hty | [Hty | [Hty | Hty]]].
    + rewrite (expression_application_eq fuel _ Hty) in Heq.
      rewrite (expression_application_eq (S fuel) _ Hty).
      revert Heq Ho. apply refines_bind; [exact IH|]. intros l.
      apply refines_bind; [exact IH|]. intros r. apply refines_refl.
    + rewrite (expression_abstraction_eq fuel _ Hty) in Heq.
      rewrite (expression_abstraction_eq (S fuel) _ Hty).
      revert Heq Ho. apply refines_bind; [apply refines_refl|]. intros v.
      apply refines_bind; [apply refines_refl|]. intros _.
      apply refines_bind; [exact IH|]. intros b. apply refines_refl.
    + rewrite (expression_variable_eq fuel _ Hty) in Heq.
      rewrite (expression_variable_eq (S fuel) _ Hty). exact Heq.
    + rewrite (expression_dispatch_fails fuel _ Hty) in Heq.
      rewrite (expression_dispatch_fails (S fuel) _ Hty). exact Heq.
Qed.

Lemma expression_fuel_le (fuel fuel' : nat) :
  fuel <= fuel' -> refines (_expression fuel) (_expression fuel').
Proof.
  induction 1 as [|fuel' _ IH].
  - apply refines_refl.
  - intros self o self' Heq Ho.
    apply expression_fuel_S; [|exact Ho]. exact (IH _ _ _ Heq Ho).
Qed.

End Budget.

Section FiniteInput.

Variable e : Token.
Hypothesis e_inert : opener (type e) = false.

Lemma depth_advance (self : Parser ListLexer) :
  ends_with e self ->
  ends_with e (Parser_init (lexer self))
  /\ depth_measure (Parser_init (lexer self)) <= depth_measure self + 0.
Proof.
  destruct self as [[p e'] t]. unfold ends_with. simpl. intros ->.
  destruct p as [|t' p]; unfold Parser_init, depth_measure; simpl.
  - rewrite e_inert. split; [reflexivity | lia].
  - split; [reflexivity|]. destruct (opener (type t')), (opener (type t)); lia.
Qed.

(** Entering an application or an abstraction uses up one token. *)
Lemma depth_opener (self : Parser ListLexer) :
  ends_with e self ->
  opener (type (token self)) = true ->
  depth_measure (Parser_init (lexer self)) + 1 <= depth_measure self.
Proof.
  destruct self as [[p e'] t]. unfold ends_with. simpl. intros -> Hop.
  destruct p as [|t' p]; unfold Parser_init, depth_measure; simpl.
  - rewrite e_inert, Hop. lia.
  - rewrite Hop. destruct (opener (type t')); lia.
Qed.

Lemma depth_costs_expression (fuel : nat) :
  costs (ends_with e) depth_measure 0 (_expression fuel).
Proof.
  apply costs_expression.
  - exact depth_advance.
  - intros self HI Hop. pose proof (depth_opener HI Hop). lia.
Qed.

Lemma depth_costs_variable : costs (ends_with e) depth_measure 0 _variable.
Proof. apply costs_variable. exact depth_advance. Qed.

Lemma depth_costs_eat (x : string) :
  costs (ends_with e) depth_measure 0 (_eat x).
Proof. apply costs_eat. exact depth_advance. Qed.

(** A budget above the measure is enough. *)
Lemma expression_terminates (fuel : nat) :
  forall self : Parser ListLexer,
    ends_with e self ->
    depth_measure self < fuel ->
    terminates (_expression fuel) self.
Proof.
  induction fuel as [|fuel IH]; intros self HI Hlt; [lia|].
  destruct (depth_advance HI) as [HI1 Hle1].
  destruct (dispatch_cases (type (token self)))
    as [Hty | [Hty | [Hty | Hty]]].
  - assert (Hop : opener (type (token self)) = true)
      by (rewrite Hty; reflexivity).
    pose proof (depth_opener HI Hop) as Hdrop.
    unfold terminates. rewrite (expression_application_eq _ _ Hty).
    apply terminates_bind; [apply IH; [exact HI1 | lia]|].
    intros l s2 Hl.
    destruct (depth_costs_expression fuel HI1) as [HI2 Hle2].
    rewrite Hl in HI2, Hle2. simpl in HI2, Hle2.
    apply terminates_bind; [apply IH; [exact HI2 | lia]|].
    intros r s3 _.
    apply terminates_bind; [apply terminates_eat|].
    intros _ s4 _. apply terminates_ret.
  - assert (Hop : opener (type (token self)) = true)
      by (unfold opener; rewrite Hty; apply orb_true_r).
    pose proof (depth_opener HI Hop) as Hdrop.
    unfold terminates. rewrite (expression_abstraction_eq _ _ Hty).
    apply terminates_bind; [apply terminates_variable|].
    intros v s2 Hv.
    destruct (depth_costs_variable HI1) as [HI2 Hle2].
    rewrite Hv in HI2, Hle2. simpl in HI2, Hle2.
    apply terminates_bind; [apply terminates_eat|].
    intros u s3 Hu.
    destruct (depth_costs_eat "." HI2) as [HI3 Hle3].
    rewrite Hu in HI3, Hle3. simpl in HI3, Hle3.
    apply terminates_bind; [apply IH; [exact HI3 | lia]|].
    intros b s4 _. apply terminates_ret.
  - unfold terminates. rewrite (expression_variable_eq _ _ Hty).
    simpl. discriminate.
  - unfold terminates. rewrite (expression_dispatch_fails _ _ Hty).
    simpl. discriminate.
Qed.

Lemma depth_measure_init (ts : list Token) :
  ends_with e (Parser_init (mkListLexer ts e))
  /\ depth_measure (Parser_init (mkListLexer ts e)) <= length ts.
Proof.
  destruct ts as [|t ts]; unfold Parser_init, depth_measure, ends_with; simpl.
  - rewrite e_inert. split; [reflexivity | lia].
  - split; [reflexivity|]. destruct (opener (type t)); lia.
Qed.

End FiniteInput.

(** ** Calls of [next] over a finite token sequence *)

Lemma same_stream_Counted {L : Type} `{Lexer L} (lx : L) (c : nat) :
  same_stream (mkCounted lx c) lx.
Proof.
  intros n. revert lx c.
  induction n as [|n IH]; intros lx c; simpl.
  - reflexivity.
  - apply IH.
Qed.

Section CountedInput.

Variable e : Token.
Hypothesis e_inert : opener (type e) = false.

Lemma work_advance (self : Parser (Counted ListLexer)) :
  counted_ends_with e self ->
  counted_ends_with e (Parser_init (lexer self))
  /\ work_potential (Parser_init (lexer self)) <= work_potential self + 1.
Proof.
  destruct self as [[[p e'] c] t]. unfold counted_ends_with. simpl.
  intros ->.
  destruct p as [|t' p]; unfold Parser_init, work_potential; simpl.
  - rewrite e_inert. split; [reflexivity | lia].
  - split; [reflexivity|]. destruct (opener (type t')), (opener (type t)); lia.
Qed.

Lemma work_opener (self : Parser (Counted ListLexer)) :
  counted_ends_with e self ->
  opener (type (token self)) = true ->
  work_potential (Parser_init (lexer self)) + 2 * 1 <= work_potential self.
Proof.
  destruct self as [[[p e'] c] t]. unfold counted_ends_with. simpl.
  intros -> Hop.
  destruct p as [|t' p]; unfold Parser_init, work_potential; simpl.
  - rewrite e_inert, Hop. lia.
  - rewrite Hop. destruct (opener (type t')); lia.
Qed.

Lemma work_costs_expression (fuel : nat) :
  costs (counted_ends_with e) work_potential 1 (_expression fuel).
Proof. apply costs_expression; [exact work_advance | exact work_opener]. Qed.

Lemma work_potential_init (ts : list Token) :
  counted_ends_with e (Parser_init (mkCounted (mkListLexer ts e) 0))
  /\ work_potential (Parser_init (mkCounted (mkListLexer ts e) 0))
     <= 3 * length ts + 1.
Proof.
  destruct ts as [|t ts];
    unfold Parser_init, work_potential, counted_ends_with; simpl.
  - rewrite e_inert. split; [reflexivity | lia].
  - split; [reflexivity|]. destruct (opener (type t)); lia.
Qed.

End CountedInput.

(** C9.  Over a lexer that hands out finitely many tokens and then an end
    marker that opens neither an application nor an abstraction, [parse]
    ends, with a tree or with an error: a budget of nested [_expression]
    calls above the number of tokens is always enough, and every such budget
    gives the same outcome and final state.  The run makes at most
    3 * n + 2 calls of [next] for n tokens, the first of them in [__init__]. *)
Theorem parse_terminates :
  forall (ts : list Token) (e : Token) (fuel : nat),
    opener (type e) = false ->
    length ts < fuel ->
    fst (parse fuel (Parser_init (mkListLexer ts e))) <> Diverge
    /\ parse fuel (Parser_init (mkListLexer ts e))
       = parse (S (length ts)) (Parser_init (mkListLexer ts e))
    /\ fst (parse fuel (Parser_init (mkCounted (mkListLexer ts e) 0)))
       = fst (parse fuel (Parser_init (mkListLexer ts e)))
    /\ pulls (lexer (snd (parse fuel
                            (Parser_init (mkCounted (mkListLexer ts e) 0)))))
       <= 3 * length ts + 2.
Proof.
  intros ts e fuel He Hfuel. unfold parse.
  destruct (@depth_measure_init e He ts) as [HI Hmu].
  assert (Hterm : forall f, length ts < f ->
            terminates (_expression f) (Parser_init (mkListLexer ts e)))
    by (intros f Hf; apply (@expression_terminates e He); [exact HI | lia]).
  split; [exact (Hterm fuel Hfuel)|]. split; [|split].
  - pose proof (Hterm (S (length ts)) (Nat.lt_succ_diag_r _)) as Hmin.
    unfold terminates in Hmin.
    destruct (_expression (S (length ts)) (Parser_init (mkListLexer ts e)))
      as [o s'] eqn:Hrun.
    apply (@expression_fuel_le _ _ (S (length ts)) fuel);
      [lia | exact Hrun | exact Hmin].
  - exact (proj1 (related_expression fuel
                    (same_view_init (same_stream_Counted (mkListLexer ts e) 0)))).
  - destruct (@work_potential_init e He ts) as [HIc Hpot].
    destruct (@work_costs_expression e He fuel _ HIc) as [_ Hle].
    unfold work_potential in Hle at 1. lia.
Qed.

Lemma parse_terminates_witness :
  opener (type EOF) = false
  /\ length [LPAREN; LAMBDA; SYMBOL "x"] < 4
  /\ fst (parse 4 (Parser_init (mkListLexer [LPAREN; LAMBDA; SYMBOL "x"] EOF)))
     <> Diverge.
Proof.
  assert (Hlen : length [LPAREN; LAMBDA; SYMBOL "x"] < 4) by (simpl; lia).
  split; [reflexivity|]. split; [exact Hlen|].
  exact (proj1 (@parse_terminates [LPAREN; LAMBDA; SYMBOL "x"] EOF 4
                  eq_refl Hlen)).
Defined.

(** The condition on the end marker cannot be dropped: over a lexer whose
    end marker has type "(", every budget is used up. *)
Lemma expression_diverges_on_opening_marker (fuel : nat) :
  let self := {| lexer := mkListLexer [] LPAREN; token := LPAREN |} in
  _expression fuel self = (Diverge, self).
Proof.
  induction fuel as [|fuel IH]; intros self; [reflexivity|].
  rewrite expression_application_eq by reflexivity.
  change (Parser_init (lexer self)) with self.
  unfold bind. subst self. rewrite IH. reflexivity.
Qed.

(** ** Only sequences of the grammar are accepted *)

Section Inversion.

Context {L : Type} `{Lexer L}.

Lemma bind_Return_inv {A B} (m : M L A) (k : A -> M L B)
    (self self' : Parser L) (b : B) :
  bind m k self = (Return b, self') ->
  exists (x : A) (mid : Parser L),
    m self = (Return x, mid) /\ k x mid = (Return b, self').
Proof.
  unfold bind. intros Heq.
  destruct (m self) as [[x | e |] mid]; try discriminate Heq.
  exists x, mid. split; [reflexivity | exact Heq].
Qed.

Lemma eat_Return_inv (x : string) (self self' : Parser L) (u : unit) :
  _eat x self = (Return u, self') ->
  type (token self) = x /\ self' = Parser_init (lexer self).
Proof.
  unfold _eat. intros Heq.
  destruct (String.eqb_spec (type (token self)) x) as [Hty | Hty].
  - rewrite advance_eq in Heq. inversion Heq. split; [exact Hty | reflexivity].
  - discriminate Heq.
Qed.

Lemma variable_Return_inv (self self' : Parser L) (v : Node) :
  _variable self = (Return v, self') ->
  type (token self) = "SYMBOL"
  /\ v = Variable_ (value (token self))
  /\ self' = Parser_init (lexer self).
Proof.
  intros Heq.
  destruct (String.eqb_spec (type (token self)) "SYMBOL") as [Hty | Hty].
  - rewrite (variable_symbol _ Hty) in Heq. inversion Heq.
    repeat split; [exact Hty].
  - unfold _variable in Heq.
    rewrite (proj2 (String.eqb_neq _ _) Hty) in Heq. discriminate Heq.
Qed.

Lemma feeds_join (ts1 ts2 : list Token) :
  forall lx mid lx' : L,
    feeds lx ts1 mid -> feeds mid ts2 lx' -> feeds lx (ts1 ++ ts2) lx'.
Proof.
  induction ts1 as [|t ts1 IH]; intros lx mid lx' H1 H2; simpl in *.
  - subst mid. exact H2.
  - destruct H1 as [Ht H1]. split; [exact Ht | exact (IH _ _ _ H1 H2)].
Qed.

Lemma feeds_init (self : Parser L) (ts : list Token) (lx lx' : L) :
  self = Parser_init lx ->
  feeds (lexer self) ts lx' ->
  feeds lx (token self :: ts) lx'.
Proof.
  intros -> Hfeed. rewrite token_init. rewrite lexer_init in Hfeed.
  simpl. split; [reflexivity | exact Hfeed].
Qed.

(** A tree returned from a parser state: the lookahead and the tokens pulled
    up to the last one spell the tree, and the last token pulled is the new
    lookahead. *)
Lemma expression_sound (fuel : nat) :
  forall (self self' : Parser L) (n : Node),
    _expression fuel self = (Return n, self') ->
    exists (ts : list Token) (lx' : L),
      derives (token self :: ts) n
      /\ feeds (lexer self) ts lx'
      /\ self' = Parser_init lx'.
Proof.
  induction fuel as [|fuel IH]; intros self self' n Heq; [discriminate Heq|].
  destruct (dispatch_cases (type (token self)))
    as [Hty | [Hty | [Hty | Hty]]].
  - rewrite (expression_application_eq _ _ Hty) in Heq.
    apply bind_Return_inv in Heq as [l [s2 [Hl Heq]]].
    apply bind_Return_inv in Heq as [r [s3 [Hr Heq]]].
    apply bind_Return_inv in Heq as [u [s4 [Hu Heq]]].
    inversion Heq; subst n self'. clear Heq.
    apply IH in Hl as [ts1 [lx2 [Hd1 [Hf1 Hs2]]]].
    apply IH in Hr as [ts2 [lx3 [Hd2 [Hf2 Hs3]]]].
    apply eat_Return_inv in Hu as [Hrp Hs4].
    exists ((token (Parser_init (lexer self)) :: ts1)
              ++ (token s2 :: ts2) ++ [token s3])%list, (lexer s3).
    split; [|split; [|exact Hs4]].
    + apply derives_application; assumption.
    + apply feeds_join with (mid := lx2).
      * apply feeds_init with (self := Parser_init (lexer self));
          [reflexivity | exact Hf1].
      * apply feeds_join with (mid := lx3).
        -- apply feeds_init; assumption.
        -- apply feeds_init with (ts := []); [exact Hs3 | reflexivity].
  - rewrite (expression_abstraction_eq _ _ Hty) in Heq.
    apply bind_Return_inv in Heq as [v [s2 [Hv Heq]]].
    apply bind_Return_inv in Heq as [u [s3 [Hu Heq]]].
    apply bind_Return_inv in Heq as [b [s4 [Hb Heq]]].
    inversion Heq; subst n self'. clear Heq.
    apply variable_Return_inv in Hv as [Hx [Hv Hs2]].
    apply eat_Return_inv in Hu as [Hdot Hs3].
    apply IH in Hb as [ts [lx4 [Hd [Hf Hs4]]]].
    exists (token (Parser_init (lexer self)) :: token s2 :: token s3 :: ts),
      lx4.
    split; [|split; [|exact Hs4]].
    + subst v. apply derives_abstraction; assumption.
    + apply feeds_init with (self := Parser_init (lexer self));
        [reflexivity|].
      apply feeds_init with (lx := lexer (Parser_init (lexer self)));
        [exact Hs2|].
      apply feeds_init with (lx := lexer s2); [exact Hs3 | exact Hf].
  - rewrite (expression_variable_eq _ _ Hty) in Heq.
    inversion Heq; subst n self'.
    exists [], (lexer self). split; [|split; reflexivity].
    apply derives_variable. exact Hty.
  - rewrite (expression_dispatch_fails _ _ Hty) in Heq. discriminate Heq.
Qed.

End Inversion.

(** X1.  When [parse] returns a tree, the tokens the lexer handed out up to
    the last one but one form a sequence of the grammar whose derivation is
    that tree, and the parser is left as one freshly built on the rest of the
    stream: the parser accepts nothing outside the grammar. *)
Theorem parse_sound :
  forall (L : Type) (HL : Lexer L) (lx : L) (fuel : nat)
         (n : Node) (self' : Parser L),
    parse fuel (Parser_init lx) = (Return n, self') ->
    exists (ts : list Token) (lx' : L),
      derives ts n /\ feeds lx ts lx' /\ self' = Parser_init lx'.
Proof.
  intros L HL lx fuel n self' Heq.
  apply expression_sound in Heq as [ts [lx' [Hd [Hf Hs]]]].
  exists (token (Parser_init lx) :: ts), lx'.
  split; [exact Hd|]. split; [|exact Hs].
  apply feeds_init with (self := Parser_init lx); [reflexivity | exact Hf].
Qed.

Lemma parse_sound_witness :
  let lx := mkListLexer [LPAREN; SYMBOL "f"; SYMBOL "x"; RPAREN; DOT] EOF in
  let n := Application (Variable_ "f") (Variable_ "x") in
  let self' := {| lexer := mkListLexer [] EOF; token := DOT |} in
  parse 2 (Parser_init lx) = (Return n, self')
  /\ exists (ts : list Token) (lx' : ListLexer),
       derives ts n /\ feeds lx ts lx' /\ self' = Parser_init lx'.
Proof.
  intros lx n self'.
  assert (Hrun : parse 2 (Parser_init lx) = (Return n, self')) by reflexivity.
  split; [exact Hrun|].
  exact (@parse_sound ListLexer _ lx 2 n self' Hrun).
Defined.

(** X2.  When [parse] raises, no sequence of the grammar begins the stream of
    the lexer: the parser rejects nothing that it could have accepted. *)
Theorem parse_rejects_only_non_sentences :
  forall (L : Type) (HL : Lexer L) (lx : L) (fuel : nat)
         (e : ParserError) (self' : Parser L),
    parse fuel (Parser_init lx) = (Raise e, self') ->
    forall (ts : list Token) (n : Node) (lx' : L),
      derives ts n -> ~ feeds lx ts lx'.
Proof.
  intros L HL lx fuel e self' Heq ts n lx' Hd Hf.
  pose proof (@expression_accepts ts n Hd L HL lx lx'
                (Nat.max fuel (height n)) Hf (Nat.le_max_r _ _)) as Hacc.
  assert (Hraise : _expression (Nat.max fuel (height n)) (Parser_init lx)
                   = (Raise e, self')).
  { apply (@expression_fuel_le _ _ fuel (Nat.max fuel (height n)));
      [apply Nat.le_max_l | exact Heq | discriminate]. }
  rewrite Hacc in Hraise. discriminate Hraise.
Qed.

Lemma parse_rejects_only_non_sentences_witness :
  let lx := mkListLexer [LPAREN; SYMBOL "f"; RPAREN] EOF in
  parse 2 (Parser_init lx)
  = (Raise {| expected := "(, λ, @, or SYMBOL"; found := ")" |},
     {| lexer := mkListLexer [] EOF; token := RPAREN |})
  /\ ~ feeds lx [SYMBOL "f"] (mkListLexer [RPAREN] EOF).
Proof.
  intros lx.
  assert (Hrun : parse 2 (Parser_init lx)
                 = (Raise {| expected := "(, λ, @, or SYMBOL"; found := ")" |},
                    {| lexer := mkListLexer [] EOF; token := RPAREN |}))
    by reflexivity.
  split; [exact Hrun|].
  apply (@parse_rejects_only_non_sentences ListLexer _ lx 2 _ _ Hrun
           [SYMBOL "f"] (Variable_ "f")).
  apply (@derives_variable (SYMBOL "f")). reflexivity.
Defined.

(** ** The shape of returned trees *)

Lemma derives_shape (ts : list Token) (n : Node) :
  derives ts n ->
  well_formed n = true /\ length ts = token_count n.
Proof.
  induction 1 as [t Ht
                 | lp rp ts1 ts2 n1 n2 Hlp _ [Hw1 Hc1] _ [Hw2 Hc2] Hrp
                 | lam x dot ts n Hlam Hx Hdot _ [Hw Hc]]; simpl.
  - split; reflexivity.
  - rewrite Hw1, Hw2. split; [reflexivity|].
    rewrite !length_app. simpl. lia.
  - split; [exact Hw | lia].
Qed.

(** X3.  Every tree that [parse] returns, from any parser state, holds a
    [Variable] node as the bound variable of each of its abstractions. *)
Theorem parse_result_well_formed :
  forall (L : Type) (HL : Lexer L) (fuel : nat)
         (self self' : Parser L) (n : Node),
    parse fuel self = (Return n, self') ->
    well_formed n = true.
Proof.
  intros L HL fuel self self' n Heq.
  apply expression_sound in Heq as [ts [lx' [Hd _]]].
  exact (proj1 (derives_shape Hd)).
Qed.

Lemma parse_result_well_formed_witness :
  let self := Parser_init (mkListLexer [AT; SYMBOL "x"; DOT; SYMBOL "y"] EOF) in
  let n := Abstraction (Variable_ "x") (Variable_ "y") in
  parse 2 self = (Return n, {| lexer := mkListLexer [] EOF; token := EOF |})
  /\ well_formed n = true.
Proof.
  intros self n.
  assert (Hrun : parse 2 self
                 = (Return n, {| lexer := mkListLexer [] EOF; token := EOF |}))
    by reflexivity.
  split; [exact Hrun|].
  exact (@parse_result_well_formed ListLexer _ 2 self _ n Hrun).
Defined.

Lemma feeds_pulls {L : Type} `{Lexer L} (ts : list Token) :
  forall c c' : Counted L,
    feeds c ts c' -> pulls c' = pulls c + length ts.
Proof.
  induction ts as [|t ts IH]; intros c c' Hfeed; simpl in *.
  - subst c'. lia.
  - destruct Hfeed as [_ Hrest]. rewrite (IH _ _ Hrest). simpl. lia.
Qed.

(** X4.  A successful [parse] calls [next] exactly once per token of the text
    of the returned tree, on top of the call made in [__init__]: the count
    kept by a counting lexer grows by [token_count] of the tree plus one. *)
Theorem parse_pulls_token_count :
  forall (L : Type) (HL : Lexer L) (lx : L) (c fuel : nat)
         (n : Node) (self' : Parser (Counted L)),
    parse fuel (Parser_init (mkCounted lx c)) = (Return n, self') ->
    pulls (lexer self') = c + token_count n + 1.
Proof.
  intros L HL lx c fuel n self' Heq.
  apply expression_sound in Heq as [ts [lx' [Hd [Hf Hs]]]].
  apply derives_shape in Hd as [_ Hlen].
  apply feeds_pulls in Hf.
  subst self'. rewrite lexer_init. simpl in *. lia.
Qed.

Lemma parse_pulls_token_count_witness :
  let lx := mkListLexer [LPAREN; SYMBOL "f"; SYMBOL "x"; RPAREN; DOT] EOF in
  let n := Application (Variable_ "f") (Variable_ "x") in
  fst (parse 2 (Parser_init (mkCounted lx 0))) = Return n
  /\ pulls (lexer (snd (parse 2 (Parser_init (mkCounted lx 0))))) = 5.
Proof.
  intros lx n. split; [reflexivity|].
  exact (@parse_pulls_token_count ListLexer _ lx 0 2 n
           (snd (parse 2 (Parser_init (mkCounted lx 0)))) eq_refl).
Defined.

Lemma derives_tokens_of (n : Node) :
  well_formed n = true -> derives (tokens_of n) n.
Proof.
  induction n as [x | l IHl r IHr | v _ b IHb]; simpl; intros Hw.
  - apply (@derives_variable (SYMBOL x)). reflexivity.
  - apply andb_true_iff in Hw as [Hl Hr].
    apply derives_application; [reflexivity | auto | auto | reflexivity].
  - destruct v as [x | |]; try discriminate Hw.
    apply (@derives_abstraction LAMBDA (SYMBOL x) DOT);
      [reflexivity | reflexivity | reflexivity | auto].
Qed.

(** X5.  Spelling a well-formed tree as tokens and parsing them gives the
    tree back: [parse] reaches every tree whose abstractions bind a
    [Variable] node. *)
Theorem parse_tokens_of :
  forall (n : Node) (e : Token) (fuel : nat),
    well_formed n = true ->
    height n <= fuel ->
    parse fuel (Parser_init (mkListLexer (tokens_of n) e))
    = (Return n, {| lexer := mkListLexer [] e; token := e |}).
Proof.
  intros n e fuel Hw Hfuel. unfold parse.
  rewrite (@expression_accepts (tokens_of n) n (derives_tokens_of n Hw)
             ListLexer _ (mkListLexer (tokens_of n) e) (mkListLexer [] e) fuel);
    [reflexivity | | exact Hfuel].
  rewrite <- (app_nil_r (tokens_of n)) at 1. apply feeds_ListLexer.
Qed.

Lemma parse_tokens_of_witness :
  let n := Application (Abstraction (Variable_ "x") (Variable_ "x"))
             (Variable_ "y") in
  well_formed n = true
  /\ height n <= 3
  /\ parse 3 (Parser_init (mkListLexer (tokens_of n) EOF))
     = (Return n, {| lexer := mkListLexer [] EOF; token := EOF |}).
Proof.
  intros n.
  assert (Hh : height n <= 3) by (simpl; lia).
  split; [reflexivity|]. split; [exact Hh|].
  exact (@parse_tokens_of n EOF 3 eq_refl Hh).
Defined.

(** ** Errors inside the productions *)

(** X6.  After a "λ" or "@" the next token must be a symbol: on any other
    token [parse] raises [expected] = "SYMBOL" with that token's type as
    [found], and that token stays the lookahead. *)
Theorem abstraction_needs_symbol :
  forall (L : Type) (HL : Lexer L) (self : Parser L) (fuel : nat),
    opens_abstraction (type (token self)) = true ->
    type (token (Parser_init (lexer self))) <> "SYMBOL" ->
    parse (S fuel) self
    = (Raise {| expected := "SYMBOL";
                found := type (token (Parser_init (lexer self))) |},
       Parser_init (lexer self)).
Proof.
  intros L HL self fuel Hlam Hsym. unfold parse.
  rewrite (expression_abstraction_eq _ _ Hlam).
  unfold bind, _variable.
  rewrite (proj2 (String.eqb_neq _ _) Hsym). reflexivity.
Qed.

Lemma abstraction_needs_symbol_witness :
  let self := Parser_init (mkListLexer [LAMBDA] EOF) in
  opens_abstraction (type (token self)) = true
  /\ type (token (Parser_init (lexer self))) <> "SYMBOL"
  /\ parse 1 self
     = (Raise {| expected := "SYMBOL"; found := "EOF" |},
        {| lexer := mkListLexer [] EOF; token := EOF |}).
Proof.
  intros self.
  assert (Hsym : type (token (Parser_init (lexer self))) <> "SYMBOL")
    by (simpl; discriminate).
  split; [reflexivity|]. split; [exact Hsym|].
  exact (@abstraction_needs_symbol ListLexer _ self 0 eq_refl Hsym).
Defined.

(** X7.  After a "λ" or "@" and a symbol the next token must be a dot: on any
    other token [parse] raises [expected] = "." with that token's type as
    [found], and that token stays the lookahead. *)
Theorem abstraction_needs_dot :
  forall (L : Type) (HL : Lexer L) (self : Parser L) (fuel : nat),
    let at_symbol := Parser_init (lexer self) in
    let at_dot := Parser_init (lexer at_symbol) in
    opens_abstraction (type (token self)) = true ->
    type (token at_symbol) = "SYMBOL" ->
    type (token at_dot) <> "." ->
    parse (S fuel) self
    = (Raise {| expected := "."; found := type (token at_dot) |}, at_dot).
Proof.
  intros L HL self fuel at_symbol at_dot Hlam Hsym Hdot. unfold parse.
  rewrite (expression_abstraction_eq _ _ Hlam).
  unfold bind. rewrite (variable_symbol _ Hsym).
  fold at_symbol. fold at_dot.
  rewrite (eat_mismatch _ Hdot). reflexivity.
Qed.

Lemma abstraction_needs_dot_witness :
  let self := Parser_init (mkListLexer [AT; SYMBOL "x"; SYMBOL "y"] EOF) in
  opens_abstraction (type (token self)) = true
  /\ parse 1 self
     = (Raise {| expected := "."; found := "SYMBOL" |},
        {| lexer := mkListLexer [] EOF; token := SYMBOL "y" |}).
Proof.
  intros self.
  split; [reflexivity|].
  refine (@abstraction_needs_dot ListLexer _ self 0 eq_refl eq_refl _).
  simpl. discriminate.
Defined.

(** X8.  An application whose two sub-expressions are complete but which is
    not closed: when the token after them has a type other than ")", [parse]
    raises [expected] = ")" with that type as [found], whatever the two
    sub-expressions are, and that token stays the lookahead. *)
Theorem application_needs_close :
  forall (L : Type) (HL : Lexer L) (lx lx' : L)
         (lp : Token) (ts1 ts2 : list Token) (n1 n2 : Node) (fuel : nat),
    type lp = "(" ->
    derives ts1 n1 ->
    derives ts2 n2 ->
    feeds lx (lp :: ts1 ++ ts2) lx' ->
    type (fst (next lx')) <> ")" ->
    Nat.max (height n1) (height n2) <= fuel ->
    parse (S fuel) (Parser_init lx)
    = (Raise {| expected := ")"; found := type (fst (next lx')) |},
       Parser_init lx').
Proof.
  intros L HL lx lx' lp ts1 ts2 n1 n2 fuel Hlp Hd1 Hd2 Hfeed Hrp Hfuel.
  destruct Hfeed as [Hfst Hrest].
  apply feeds_app in Hrest as [mid [Hf1 Hf2]].
  unfold parse.
  rewrite expression_application_eq by (rewrite token_init, Hfst; exact Hlp).
  rewrite lexer_init. unfold bind.
  rewrite (@expression_accepts ts1 n1 Hd1 L HL _ mid fuel Hf1) by lia.
  rewrite (@expression_accepts ts2 n2 Hd2 L HL mid lx' fuel Hf2) by lia.
  rewrite eat_mismatch by (rewrite token_init; exact Hrp).
  rewrite token_init. reflexivity.
Qed.

Lemma application_needs_close_witness :
  let lx := mkListLexer [LPAREN; SYMBOL "f"; SYMBOL "x"; DOT] EOF in
  let lx' := mkListLexer [DOT] EOF in
  feeds lx (LPAREN :: [SYMBOL "f"] ++ [SYMBOL "x"]) lx'
  /\ parse 2 (Parser_init lx)
     = (Raise {| expected := ")"; found := "." |},
        {| lexer := mkListLexer [] EOF; token := DOT |}).
Proof.
  intros lx lx'.
  assert (Hfeed : feeds lx (LPAREN :: [SYMBOL "f"] ++ [SYMBOL "x"]) lx')
    by (simpl; repeat split).
  split; [exact Hfeed|].
  refine (@application_needs_close ListLexer _ lx lx' LPAREN
            [SYMBOL "f"] [SYMBOL "x"] (Variable_ "f") (Variable_ "x") 1
            eq_refl _ _ Hfeed _ _).
  - apply (@derives_variable (SYMBOL "f")). reflexivity.
  - apply (@derives_variable (SYMBOL "x")). reflexivity.
  - simpl. discriminate.
  - simpl. lia.
Defined.

(** ** The lookahead is the last token handed out *)

Section Tracking.

Context {L : Type} `{Lexer L}.
Variable lx : L.

Lemma tracks_init : tracks lx (Parser_init (mkCounted lx 0)).
Proof.
  unfold tracks. rewrite token_init, lexer_init. simpl.
  repeat split. lia.
Qed.

Lemma tracks_advance (self : Parser (Counted L)) :
  tracks lx self ->
  tracks lx (Parser_init (lexer self)) /\ 0 <= 0 + 0.
Proof.
  intros [Hone [Htok Hrest]]. split; [|lia].
  unfold tracks. rewrite token_init, lexer_init.
  change (next (lexer self)) with (Counted_next (lexer self)).
  unfold Counted_next. cbn [fst snd pulls inner].
  split; [lia|]. split.
  - replace (S (pulls (lexer self)) - 1) with (pulls (lexer self) + 0) by lia.
    exact (Hrest 0).
  - intros n.
    replace (S (pulls (lexer self)) + n) with (pulls (lexer self) + S n)
      by lia.
    exact (Hrest (S n)).
Qed.

Lemma tracks_expression (fuel : nat) (self : Parser (Counted L)) :
  tracks lx self -> tracks lx (snd (_expression fuel self)).
Proof.
  intros HI.
  apply (@costs_expression (Counted L) _ (tracks lx) (fun _ => 0) 0
           tracks_advance (fun _ _ _ => le_n 0) fuel self HI).
Qed.

End Tracking.

(** X9.  However [parse] ends, the parser has pulled the tokens of the stream
    in order, one per call of [next]: after c calls its lookahead is token
    number c - 1 of the stream and its lexer stands right behind it, so
    nothing was skipped, re-read or pushed back.  When [parse] raises,
    [found] is the type of that token, which locates the error in the
    stream. *)
Theorem parse_stands_at_last_token :
  forall (L : Type) (HL : Lexer L) (lx : L) (fuel : nat),
    let run := parse fuel (Parser_init (mkCounted lx 0)) in
    let c := pulls (lexer (snd run)) in
    1 <= c
    /\ token (snd run) = nth_token (c - 1) lx
    /\ (forall n : nat,
          nth_token n (inner (lexer (snd run))) = nth_token (c + n) lx)
    /\ match fst run with
       | Raise e => found e = type (nth_token (c - 1) lx)
       | _ => True
       end.
Proof.
  intros L HL lx fuel run c.
  destruct (tracks_expression fuel (tracks_init lx)) as [Hone [Htok Hrest]].
  fold (parse fuel (Parser_init (mkCounted lx 0))) in Hone, Htok, Hrest.
  fold run in Hone, Htok, Hrest. fold c in Hone, Htok, Hrest.
  split; [exact Hone|]. split; [exact Htok|]. split; [exact Hrest|].
  destruct run as [o s'] eqn:Hrun. simpl in *.
  destruct o as [n | e |]; [exact I | | exact I].
  destruct (expression_raise_inv _ _ Hrun) as [Hfound _].
  rewrite Hfound. rewrite Htok. reflexivity.
Qed.

(** ** The text of an error *)

(** The text alone does not tell two errors apart in general. *)
Lemma message_ambiguous_in_general :
  message {| expected := "a, Found: b"; found := "c" |}
  = message {| expected := "a"; found := "b, Found: c" |}.
Proof. reflexivity. Qed.

Lemma message_inj_on_reported (e1 e2 : ParserError) :
  In (expected e1) reported_by_parse ->
  In (expected e2) reported_by_parse ->
  message e1 = message e2 ->
  e1 = e2.
Proof.
  destruct e1 as [x1 f1], e2 as [x2 f2]. unfold message. simpl.
  intros H1 H2 Hm.
  repeat (destruct H1 as [H1 | H1]; [subst x1|]); [| | | | contradiction];
    (repeat (destruct H2 as [H2 | H2]; [subst x2|]); [| | | | contradiction]);
    simpl in Hm; inversion Hm; reflexivity.
Qed.

(** X10.  The text "Expected: ..., Found: ..." of an error raised by [parse]
    determines the error: two errors of [parse] with the same text have the
    same [expected] and the same [found]. *)
Theorem parse_error_message_unambiguous :
  forall (L1 L2 : Type) (HL1 : Lexer L1) (HL2 : Lexer L2)
         (fuel1 fuel2 : nat) (s1 s1' : Parser L1) (s2 s2' : Parser L2)
         (e1 e2 : ParserError),
    parse fuel1 s1 = (Raise e1, s1') ->
    parse fuel2 s2 = (Raise e2, s2') ->
    message e1 = message e2 ->
    e1 = e2.
Proof.
  intros L1 L2 HL1 HL2 fuel1 fuel2 s1 s1' s2 s2' e1 e2 H1 H2 Hm.
  apply message_inj_on_reported; [| | exact Hm].
  - exact (proj2 (expression_raise_inv _ _ H1)).
  - exact (proj2 (expression_raise_inv _ _ H2)).
Qed.

Lemma parse_error_message_unambiguous_witness :
  let s1 := Parser_init (mkListLexer [LPAREN; RPAREN] EOF) in
  let s2 := Parser_init (mkCursorLexer [LPAREN; SYMBOL "x"; RPAREN] 0 EOF) in
  let e := {| expected := "(, λ, @, or SYMBOL"; found := ")" |} in
  fst (parse 2 s1) = Raise e
  /\ fst (parse 3 s2) = Raise e
  /\ e = e.
Proof.
  intros s1 s2 e.
  split; [reflexivity|]. split; [reflexivity|].
  exact (@parse_error_message_unambiguous ListLexer CursorLexer _ _ 2 3
           s1 (snd (parse 2 s1)) s2 (snd (parse 3 s2)) e e
           eq_refl eq_refl eq_refl).
Defined.

(** ** Values of tokens other than symbols are never read *)

Section ValuesIgnored.

Context {L1 L2 : Type} `{Lexer L1} `{Lexer L2}.

Lemma alike_view_init (lx1 : L1) (lx2 : L2) :
  alike_stream lx1 lx2 -> alike_view (Parser_init lx1) (Parser_init lx2).
Proof.
  intros Hs. unfold alike_view. rewrite !token_init, !lexer_init. split.
  - exact (Hs 0).
  - intros n. exact (Hs (S n)).
Qed.

Lemma alike_ret {A} (a : A) : alike_run (ret (L := L1) a) (ret (L := L2) a).
Proof. intros s1 s2 Hv. split; [reflexivity | exact Hv]. Qed.

Lemma alike_advance : alike_run (_advance (L := L1)) (_advance (L := L2)).
Proof.
  intros s1 s2 [_ Hs]. rewrite !advance_eq.
  split; [reflexivity | apply alike_view_init; exact Hs].
Qed.

Lemma alike_error {A} (x : string) :
  alike_run (@_error L1 A x) (@_error L2 A x).
Proof.
  intros s1 s2 Hv. unfold _error, raise. split; [|exact Hv].
  simpl. destruct Hv as [[Hty _] _]. rewrite Hty. reflexivity.
Qed.

Lemma alike_bind {A B} (m1 : M L1 A) (m2 : M L2 A)
    (k1 : A -> M L1 B) (k2 : A -> M L2 B) :
  alike_run m1 m2 ->
  (forall a, alike_run (k1 a) (k2 a)) ->
  alike_run (bind m1 k1) (bind m2 k2).
Proof.
  intros Hm Hk s1 s2 Hv. unfold bind.
  destruct (Hm s1 s2 Hv) as [Hout Hv'].
  destruct (m1 s1) as [o1 t1], (m2 s2) as [o2 t2]. simpl in Hout, Hv'.
  subst o2. destruct o1 as [a | e |].
  - apply Hk. exact Hv'.
  - split; [reflexivity | exact Hv'].
  - split; [reflexivity | exact Hv'].
Qed.

Lemma alike_eat (x : string) :
  alike_run (_eat (L := L1) x) (_eat (L := L2) x).
Proof.
  intros s1 s2 Hv. unfold _eat.
  pose proof Hv as [[Hty _] _]. rewrite <- Hty.
  destruct (type (token s1) =? x).
  - apply alike_advance. exact Hv.
  - apply alike_error. exact Hv.
Qed.

(** The one place where a value is read: the lookahead is a symbol there. *)
Lemma alike_variable : alike_run (_variable (L := L1)) (_variable (L := L2)).
Proof.
  intros s1 s2 Hv. unfold _variable.
  pose proof Hv as [[Hty Hval] _]. rewrite <- Hty.
  destruct (String.eqb_spec (type (token s1)) "SYMBOL") as [Hsym | Hsym].
  - rewrite <- (Hval Hsym).
    apply alike_bind; [apply alike_advance | | exact Hv].
    intros _. apply alike_ret.
  - apply alike_error. exact Hv.
Qed.

Lemma alike_expression (fuel : nat) :
  alike_run (_expression (L := L1) fuel) (_expression (L := L2) fuel).
Proof.
  induction fuel as [|fuel IH]; intros s1 s2 Hv.
  - split; [reflexivity | exact Hv].
  - simpl. unfold _application, _abstraction.
    pose proof Hv as [[Hty _] _]. rewrite <- Hty.
    destruct (type (token s1) =? "(").
    { apply alike_bind; [apply alike_advance | | exact Hv].
      intros _. apply alike_bind; [exact IH|]. intros l.
      apply alike_bind; [exact IH|]. intros r.
      apply alike_bind; [apply alike_eat|]. intros _. apply alike_ret. }
    destruct ((type (token s1) =? "λ") || (type (token s1) =? "@")).
    { apply alike_bind; [apply alike_advance | | exact Hv].
      intros _. apply alike_bind; [apply alike_variable|]. intros v.
      apply alike_bind; [apply alike_eat|]. intros _.
      apply alike_bind; [exact IH|]. intros b. apply alike_ret. }
    destruct (type (token s1) =? "SYMBOL").
    { apply alike_variable. exact Hv. }
    apply alike_error. exact Hv.
Qed.

End ValuesIgnored.

Lemma alike_stream_ListLexer (ts1 ts2 : list Token) (e1 e2 : Token) :
  Forall2 alike ts1 ts2 ->
  alike e1 e2 ->
  alike_stream (mkListLexer ts1 e1) (mkListLexer ts2 e2).
Proof.
  intros Hts He n. rewrite !nth_token_ListLexer. revert n.
  induction Hts as [|t1 t2 ts1 ts2 Ht _ IH]; intros n.
  - destruct n; exact He.
  - destruct n as [|n]; [exact Ht | apply IH].
Qed.

(** X11.  [parse] reads the value of a token only when its type is "SYMBOL".
    Over two token sequences that agree in the types of their tokens and in
    the values of their symbols, it ends in the same outcome, whatever the
    values of the parentheses, introducers, dots and the end marker are. *)
Theorem parse_ignores_punctuation_values :
  forall (ts1 ts2 : list Token) (e1 e2 : Token) (fuel : nat),
    Forall2 alike ts1 ts2 ->
    alike e1 e2 ->
    fst (parse fuel (Parser_init (mkListLexer ts1 e1)))
    = fst (parse fuel (Parser_init (mkListLexer ts2 e2))).
Proof.
  intros ts1 ts2 e1 e2 fuel Hts He.
  exact (proj1 (alike_expression fuel
                  (alike_view_init (alike_stream_ListLexer Hts He)))).
Qed.

Lemma parse_ignores_punctuation_values_witness :
  let ts1 := [LPAREN; SYMBOL "f"; SYMBOL "x"; RPAREN] in
  let ts2 := [mkToken "(" "open"; SYMBOL "f"; SYMBOL "x"; mkToken ")" ""] in
  Forall2 alike ts1 ts2
  /\ alike EOF (mkToken "EOF" "end")
  /\ fst (parse 2 (Parser_init (mkListLexer ts1 EOF)))
     = fst (parse 2 (Parser_init (mkListLexer ts2 (mkToken "EOF" "end")))).
Proof.
  intros ts1 ts2.
  assert (Hts : Forall2 alike ts1 ts2)
    by (repeat constructor; simpl; discriminate).
  assert (He : alike EOF (mkToken "EOF" "end"))
    by (split; [reflexivity | simpl; discriminate]).
  split; [exact Hts|]. split; [exact He|].
  exact (@parse_ignores_punctuation_values ts1 ts2 EOF (mkToken "EOF" "end") 2
           Hts He).
Defined.

(** ** Calling [parse] again *)

(** X12.  After a successful [parse] the same parser object can be asked
    again: over two sequences of the grammar one after the other, two calls
    of [parse] return the two trees in order and leave the parser as one
    freshly built on what follows. *)
Theorem parse_twice_reads_two_expressions :
  forall (ts1 ts2 rest : list Token) (n1 n2 : Node) (e : Token) (fuel : nat),
    derives ts1 n1 ->
    derives ts2 n2 ->
    Nat.max (height n1) (height n2) <= fuel ->
    (first <- parse fuel ;; second <- parse fuel ;; ret (first, second))
      (Parser_init (mkListLexer (ts1 ++ ts2 ++ rest) e))
    = (Return (n1, n2), Parser_init (mkListLexer rest e)).
Proof.
  intros ts1 ts2 rest n1 n2 e fuel Hd1 Hd2 Hfuel. unfold parse, bind.
  rewrite (@expression_accepts ts1 n1 Hd1 ListLexer _
             (mkListLexer (ts1 ++ ts2 ++ rest) e)
             (mkListLexer (ts2 ++ rest) e) fuel (feeds_ListLexer _ _ _))
    by lia.
  rewrite (@expression_accepts ts2 n2 Hd2 ListLexer _
             (mkListLexer (ts2 ++ rest) e)
             (mkListLexer rest e) fuel (feeds_ListLexer _ _ _))
    by lia.
  reflexivity.
Qed.

Lemma parse_twice_reads_two_expressions_witness :
  (first <- parse 1 ;; second <- parse 1 ;; ret (first, second))
    (Parser_init (mkListLexer ([SYMBOL "f"] ++ [SYMBOL "x"] ++ [RPAREN]) EOF))
  = (Return (Variable_ "f", Variable_ "x"),
     {| lexer := mkListLexer [] EOF; token := RPAREN |}).
Proof.
  refine (@parse_twice_reads_two_expressions [SYMBOL "f"] [SYMBOL "x"]
            [RPAREN] (Variable_ "f") (Variable_ "x") EOF 1 _ _ _).
  - apply (@derives_variable (SYMBOL "f")). reflexivity.
  - apply (@derives_variable (SYMBOL "x")). reflexivity.
  - simpl. lia.
Defined.

(** ** Failures and the first mismatch *)

Section Passing.

Context {L : Type} `{Lexer L}.

Lemma passes_app (ts1 ts2 : list Token) :
  forall self self' : Parser L,
    passes self (ts1 ++ ts2) self' ->
    exists mid, passes self ts1 mid /\ passes mid ts2 self'.
Proof.
  induction ts1 as [|t ts1 IH]; intros self self' Hp; simpl in *.
  - exists self. split; [reflexivity | exact Hp].
  - destruct Hp as [Ht Hrest].
    destruct (IH _ _ Hrest) as [mid [H1 H2]].
    exists mid. repeat split; assumption.
Qed.

Lemma passes_join (ts1 ts2 : list Token) :
  forall self mid self' : Parser L,
    passes self ts1 mid -> passes mid ts2 self' ->
    passes self (ts1 ++ ts2) self'.
Proof.
  induction ts1 as [|t ts1 IH]; intros self mid self' H1 H2; simpl in *.
  - subst mid. exact H2.
  - destruct H1 as [Ht H1]. split; [exact Ht | exact (IH _ _ _ H1 H2)].
Qed.

Lemma feeds_passes (ts : list Token) :
  forall lx lx' : L,
    feeds lx ts lx' -> passes (Parser_init lx) ts (Parser_init lx').
Proof.
  induction ts as [|t ts IH]; intros lx lx' Hf; simpl in *.
  - subst lx'. reflexivity.
  - destruct Hf as [Ht Hrest]. split.
    + rewrite token_init. exact Ht.
    + rewrite lexer_init. apply IH. exact Hrest.
Qed.

Lemma derives_height (ts : list Token) (n : Node) :
  derives ts n -> height n <= length ts.
Proof.
  induction 1 as [t Ht
                 | lp rp ts1 ts2 n1 n2 Hlp _ IH1 _ IH2 Hrp
                 | lam x dot ts n Hlam Hx Hdot _ IH]; simpl.
  - lia.
  - rewrite !length_app. simpl. lia.
  - lia.
Qed.

(** [expression_accepts], from any parser state. *)
Lemma expression_accepts_from (ts : list Token) (n : Node) :
  derives ts n ->
  forall (self self' : Parser L) (fuel : nat),
    passes self ts self' ->
    height n <= fuel ->
    _expression fuel self = (Return n, self').
Proof.
  induction 1 as [t Ht
                 | lp rp ts1 ts2 n1 n2 Hlp _ IH1 _ IH2 Hrp
                 | lam x dot ts n Hlam Hx Hdot _ IH];
    intros self self' fuel Hp Hfuel;
    (destruct fuel as [|fuel]; [simpl in Hfuel; lia|]).
  - destruct Hp as [Htok Hend]. simpl in Hend.
    rewrite expression_variable_eq by (rewrite Htok; exact Ht).
    rewrite Htok, Hend. reflexivity.
  - destruct Hp as [Htok Hrest].
    apply passes_app in Hrest as [m1 [Hp1 Hrest]].
    apply passes_app in Hrest as [m2 [Hp2 [Hrptok Hend]]].
    simpl in Hend, Hfuel.
    rewrite expression_application_eq by (rewrite Htok; exact Hlp).
    unfold bind.
    rewrite (IH1 _ _ fuel Hp1) by lia.
    rewrite (IH2 _ _ fuel Hp2) by lia.
    rewrite eat_match by (rewrite Hrptok; exact Hrp).
    rewrite Hend. reflexivity.
  - destruct Hp as [Htok [Hxtok [Hdottok Hrest]]].
    simpl in Hfuel.
    rewrite expression_abstraction_eq by (rewrite Htok; exact Hlam).
    unfold bind.
    rewrite variable_symbol by (rewrite Hxtok; exact Hx).
    rewrite Hxtok.
    rewrite eat_match by (rewrite Hdottok; exact Hdot).
    rewrite (IH _ _ fuel Hrest) by lia.
    reflexivity.
Qed.

(** [expression_sound], from any parser state. *)
Lemma expression_sound_from (fuel : nat) (self self' : Parser L) (n : Node) :
  _expression fuel self = (Return n, self') ->
  exists ts : list Token, derives ts n /\ passes self ts self'.
Proof.
  intros Heq.
  apply expression_sound in Heq as [ts [lx' [Hd [Hf Hs]]]].
  exists (token self :: ts). split; [exact Hd|].
  simpl. split; [reflexivity|]. subst self'.
  apply feeds_passes. exact Hf.
Qed.

End Passing.

Lemma accepts_expression (ty : string) :
  accepts "(, λ, @, or SYMBOL" ty = starts_expression ty.
Proof.
  unfold accepts, starts_expression, opens_application, opens_abstraction,
    opens_variable. simpl.
  destruct (ty =? "("), (ty =? "λ"), (ty =? "@"), (ty =? "SYMBOL");
    reflexivity.
Qed.

Lemma accepts_close (ty : string) : accepts ")" ty = (ty =? ")").
Proof. unfold accepts. simpl. apply orb_false_r. Qed.

Lemma accepts_symbol (ty : string) : accepts "SYMBOL" ty = (ty =? "SYMBOL").
Proof. unfold accepts. simpl. apply orb_false_r. Qed.

Lemma accepts_dot (ty : string) : accepts "." ty = (ty =? ".").
Proof. unfold accepts. simpl. apply orb_false_r. Qed.

Section Mismatch.

Context {L : Type} `{Lexer L}.

Lemma bind_Raise_inv {A B} (m : M L A) (k : A -> M L B)
    (self self' : Parser L) (e : ParserError) :
  bind m k self = (Raise e, self') ->
  m self = (Raise e, self')
  \/ exists (x : A) (mid : Parser L),
       m self = (Return x, mid) /\ k x mid = (Raise e, self').
Proof.
  unfold bind. intros Heq.
  destruct (m self) as [[x | e0 |] mid].
  - right. exists x, mid. split; [reflexivity | exact Heq].
  - left. inversion Heq. reflexivity.
  - discriminate Heq.
Qed.

Lemma eat_Raise_inv (x : string) (self self' : Parser L) (e : ParserError) :
  _eat x self = (Raise e, self') ->
  type (token self) <> x
  /\ e = {| expected := x; found := type (token self) |}
  /\ self' = self.
Proof.
  intros Heq.
  destruct (String.eqb_spec (type (token self)) x) as [Hty | Hty].
  - rewrite (eat_match _ Hty) in Heq. discriminate Heq.
  - rewrite (eat_mismatch _ Hty) in Heq. injection Heq as He Hs.
    split; [exact Hty|]. split; symmetry; assumption.
Qed.

Lemma variable_Raise_inv (self self' : Parser L) (e : ParserError) :
  _variable self = (Raise e, self') ->
  type (token self) <> "SYMBOL"
  /\ e = {| expected := "SYMBOL"; found := type (token self) |}
  /\ self' = self.
Proof.
  intros Heq.
  destruct (String.eqb_spec (type (token self)) "SYMBOL") as [Hty | Hty].
  - rewrite (variable_symbol _ Hty) in Heq. discriminate Heq.
  - unfold _variable in Heq.
    rewrite (proj2 (String.eqb_neq _ _) Hty) in Heq.
    unfold _error, raise in Heq. injection Heq as He Hs.
    split; [exact Hty|]. split; symmetry; assumption.
Qed.

(** Where an error comes from: the parser moved over tokens that stop
    inside a derivation, and its lookahead has none of the types wanted
    there. *)
Lemma expression_raise_expects (fuel : nat) :
  forall (self self' : Parser L) (e : ParserError),
    _expression fuel self = (Raise e, self') ->
    exists ts : list Token,
      passes self ts self'
      /\ expects ts (expected e)
      /\ accepts (expected e) (type (token self')) = false
      /\ found e = type (token self').
Proof.
  induction fuel as [|fuel IH]; intros self self' e Heq; [discriminate Heq|].
  destruct (dispatch_cases (type (token self)))
    as [Hty | [Hty | [Hty | Hty]]].
  - rewrite (expression_application_eq _ _ Hty) in Heq.
    apply bind_Raise_inv in Heq as [Heq | [l [s2 [Hl Heq]]]].
    { apply IH in Heq as [ts [Hp [Hx [Hacc Hfound]]]].
      exists (token self :: ts). repeat split; try assumption.
      apply expects_in_function; assumption. }
    apply expression_sound_from in Hl as [ts1 [Hd1 Hp1]].
    apply bind_Raise_inv in Heq as [Heq | [r [s3 [Hr Heq]]]].
    { apply IH in Heq as [ts [Hp [Hx [Hacc Hfound]]]].
      exists (token self :: ts1 ++ ts). repeat split; try assumption.
      - exact (passes_join _ _ _ _ _ Hp1 Hp).
      - apply expects_in_argument with (n1 := l); assumption. }
    apply expression_sound_from in Hr as [ts2 [Hd2 Hp2]].
    apply bind_Raise_inv in Heq as [Heq | [u [s4 [_ Heq]]]];
      [|discriminate Heq].
    apply eat_Raise_inv in Heq as [Hne [He Hs]]. subst e self'.
    exists (token self :: ts1 ++ ts2). simpl. repeat split.
    + exact (passes_join _ _ _ _ _ Hp1 Hp2).
    + apply expects_close with (n1 := l) (n2 := r); assumption.
    + rewrite accepts_close. apply String.eqb_neq. exact Hne.
  - rewrite (expression_abstraction_eq _ _ Hty) in Heq.
    apply bind_Raise_inv in Heq as [Heq | [v [s2 [Hv Heq]]]].
    { apply variable_Raise_inv in Heq as [Hne [He Hs]]. subst e self'.
      exists [token self]. simpl. repeat split.
      - apply expects_symbol. exact Hty.
      - rewrite accepts_symbol. apply String.eqb_neq. exact Hne. }
    apply variable_Return_inv in Hv as [Hsym [_ Hs2]].
    apply bind_Raise_inv in Heq as [Heq | [u [s3 [Hu Heq]]]].
    { apply eat_Raise_inv in Heq as [Hne [He Hs]]. subst e self' s2.
      exists [token self; token (Parser_init (lexer self))].
      split; [simpl; repeat split|]. split; [|split; [|reflexivity]].
      - apply expects_dot; assumption.
      - simpl. rewrite accepts_dot. apply String.eqb_neq. exact Hne. }
    apply eat_Return_inv in Hu as [Hdot Hs3].
    apply bind_Raise_inv in Heq as [Heq | [b [s4 [_ Heq]]]];
      [|discriminate Heq].
    apply IH in Heq as [ts [Hp [Hx [Hacc Hfound]]]].
    subst s2 s3.
    exists (token self :: token (Parser_init (lexer self))
              :: token (Parser_init (lexer (Parser_init (lexer self)))) :: ts).
    split; [simpl; repeat split; exact Hp|].
    split; [|split; assumption].
    apply expects_in_body; assumption.
  - rewrite (expression_variable_eq _ _ Hty) in Heq. discriminate Heq.
  - rewrite (expression_dispatch_fails _ _ Hty) in Heq.
    inversion Heq; subst. exists []. simpl. repeat split.
    + apply expects_expression.
    + rewrite accepts_expression. exact Hty.
Qed.

(** And back: over tokens that stop inside a derivation, a lookahead of
    none of the wanted types makes the parser raise there, naming what was
    wanted. *)
Lemma expects_raises (ts : list Token) (x : string) :
  expects ts x ->
  forall (self self' : Parser L) (fuel : nat),
    passes self ts self' ->
    accepts x (type (token self')) = false ->
    length ts < fuel ->
    _expression fuel self
    = (Raise {| expected := x; found := type (token self') |}, self').
Proof.
  induction 1 as [
                 | lp ts x Hlp _ IH
                 | lp ts1 ts n1 x Hlp Hd1 _ IH
                 | lp ts1 ts2 n1 n2 Hlp Hd1 Hd2
                 | lam Hlam
                 | lam sy Hlam Hsy
                 | lam sy dot ts y Hlam Hsy Hdot _ IH];
    intros self self' fuel Hp Hacc Hfuel;
    (destruct fuel as [|fuel]; [lia|]); simpl in Hfuel.
  - simpl in Hp. subst self'.
    rewrite accepts_expression in Hacc.
    apply expression_dispatch_fails. exact Hacc.
  - destruct Hp as [Htok Hrest].
    rewrite expression_application_eq by (rewrite Htok; exact Hlp).
    unfold bind. rewrite (IH _ _ fuel Hrest Hacc) by lia. reflexivity.
  - destruct Hp as [Htok Hrest].
    apply passes_app in Hrest as [mid [Hp1 Hp2]].
    rewrite length_app in Hfuel. pose proof (derives_height Hd1) as Hh1.
    rewrite expression_application_eq by (rewrite Htok; exact Hlp).
    unfold bind.
    rewrite (@expression_accepts_from _ _ _ _ Hd1 _ _ fuel Hp1) by lia.
    rewrite (IH _ _ fuel Hp2 Hacc) by lia. reflexivity.
  - destruct Hp as [Htok Hrest].
    apply passes_app in Hrest as [mid [Hp1 Hp2]].
    rewrite length_app in Hfuel.
    pose proof (derives_height Hd1) as Hh1.
    pose proof (derives_height Hd2) as Hh2.
    rewrite accepts_close in Hacc. apply String.eqb_neq in Hacc.
    rewrite expression_application_eq by (rewrite Htok; exact Hlp).
    unfold bind.
    rewrite (@expression_accepts_from _ _ _ _ Hd1 _ _ fuel Hp1) by lia.
    rewrite (@expression_accepts_from _ _ _ _ Hd2 _ _ fuel Hp2) by lia.
    rewrite (eat_mismatch _ Hacc). reflexivity.
  - destruct Hp as [Htok Hend]. simpl in Hend. subst self'.
    rewrite accepts_symbol in Hacc.
    rewrite expression_abstraction_eq by (rewrite Htok; exact Hlam).
    unfold bind, _variable. rewrite Hacc. reflexivity.
  - destruct Hp as [Htok [Hsytok Hend]]. simpl in Hend. subst self'.
    rewrite accepts_dot in Hacc. apply String.eqb_neq in Hacc.
    rewrite expression_abstraction_eq by (rewrite Htok; exact Hlam).
    unfold bind.
    rewrite variable_symbol by (rewrite Hsytok; exact Hsy).
    rewrite (eat_mismatch _ Hacc). reflexivity.
  - destruct Hp as [Htok [Hsytok [Hdottok Hrest]]].
    rewrite expression_abstraction_eq by (rewrite Htok; exact Hlam).
    unfold bind.
    rewrite variable_symbol by (rewrite Hsytok; exact Hsy).
    rewrite eat_match by (rewrite Hdottok; exact Hdot).
    rewrite (IH _ _ fuel Hrest Hacc) by lia. reflexivity.
Qed.

(** Two budgets that are both enough give the same result. *)
Lemma expression_outcome_unique (fuel1 fuel2 : nat) (self s1 s2 : Parser L)
    (o1 o2 : Outcome Node) :
  _expression fuel1 self = (o1, s1) -> o1 <> Diverge ->
  _expression fuel2 self = (o2, s2) -> o2 <> Diverge ->
  o1 = o2 /\ s1 = s2.
Proof.
  intros H1 Ho1 H2 Ho2.
  pose proof (@expression_fuel_le _ _ fuel1 (Nat.max fuel1 fuel2)
                (Nat.le_max_l _ _) _ _ _ H1 Ho1) as E1.
  pose proof (@expression_fuel_le _ _ fuel2 (Nat.max fuel1 fuel2)
                (Nat.le_max_r _ _) _ _ _ H2 Ho2) as E2.
  rewrite E1 in E2. inversion E2. split; reflexivity.
Qed.

End Mismatch.

(** ** The grammar seen through the parser *)

Lemma passes_ListLexer (ts rest : list Token) (e : Token) :
  passes (Parser_init (mkListLexer (ts ++ rest) e)) ts
    (Parser_init (mkListLexer rest e)).
Proof. apply feeds_passes. apply feeds_ListLexer. Qed.

Lemma passes_ListLexer_all (ts : list Token) (e : Token) :
  passes (Parser_init (mkListLexer ts e)) ts
    (Parser_init (mkListLexer [] e)).
Proof.
  pose proof (passes_ListLexer ts [] e) as Hp.
  rewrite app_nil_r in Hp. exact Hp.
Qed.

(** What a parser over a list lexer moves over is a prefix of the list,
    unless it has reached the end marker. *)
Lemma passes_ListLexer_cases (p : list Token) :
  forall (ts : list Token) (e : Token) (self' : Parser ListLexer),
    passes (Parser_init (mkListLexer ts e)) p self' ->
    (exists q, ts = (p ++ q)%list /\ self' = Parser_init (mkListLexer q e))
    \/ In e p.
Proof.
  induction p as [|t p IH]; intros ts e self' Hp.
  - left. exists ts. split; [reflexivity | symmetry; exact Hp].
  - destruct Hp as [Htok Hrest].
    destruct ts as [|t0 ts].
    + right. left. symmetry. exact Htok.
    + change (t0 = t) in Htok. subst t0.
      change (passes (Parser_init (mkListLexer ts e)) p self') in Hrest.
      destruct (IH _ _ _ Hrest) as [[q [Hq Hs]] | Hin].
      * left. exists q. split; [simpl; f_equal; exact Hq | exact Hs].
      * right. right. exact Hin.
Qed.

(** No token of a sequence of the grammar has the type of [EOF]. *)
Lemma derives_no_marker (ts : list Token) (n : Node) :
  derives ts n -> forall t, type t = "EOF" -> ~ In t ts.
Proof.
  induction 1 as [t0 Ht
                 | lp rp ts1 ts2 n1 n2 Hlp _ IH1 _ IH2 Hrp
                 | lam x dot ts n Hlam Hx Hdot _ IH];
    intros t Hty Hin.
  - destruct Hin as [-> | []]. rewrite Hty in Ht. discriminate Ht.
  - destruct Hin as [-> | Hin]; [rewrite Hty in Hlp; discriminate Hlp|].
    apply in_app_or in Hin as [Hin | Hin]; [exact (IH1 t Hty Hin)|].
    apply in_app_or in Hin as [Hin | Hin]; [exact (IH2 t Hty Hin)|].
    destruct Hin as [-> | []]. rewrite Hty in Hrp. discriminate Hrp.
  - destruct Hin as [-> | [-> | [-> | Hin]]].
    + rewrite Hty in Hlam. discriminate Hlam.
    + rewrite Hty in Hx. discriminate Hx.
    + rewrite Hty in Hdot. discriminate Hdot.
    + exact (IH t Hty Hin).
Qed.

Lemma viable_no_marker (ts : list Token) :
  viable ts -> ~ In EOF ts.
Proof.
  intros [rest [n Hd]] Hin.
  apply (@derives_no_marker _ _ Hd EOF); [reflexivity|].
  apply in_or_app. left. exact Hin.
Qed.

Lemma viable_prefix (ts1 ts2 : list Token) :
  viable (ts1 ++ ts2) -> viable ts1.
Proof.
  intros [rest [n Hd]]. exists (ts2 ++ rest)%list, n.
  rewrite app_assoc. exact Hd.
Qed.

Lemma expects_reported (ts : list Token) (x : string) :
  expects ts x -> In x reported_by_parse.
Proof.
  induction 1; simpl; tauto.
Qed.

Lemma reported_rejects_marker (x : string) :
  In x reported_by_parse -> accepts x (type EOF) = false.
Proof.
  simpl. intros [<- | [<- | [<- | [<- | []]]]]; reflexivity.
Qed.

(** No sequence of the grammar is the beginning of a longer one. *)
Lemma derives_prefix_free (p r : list Token) (n n' : Node) :
  derives p n -> derives (p ++ r) n' -> r = [].
Proof.
  intros Hd Hd'.
  pose proof (@expression_accepts_from _ _ _ _ Hd _ _ (height n)
                (passes_ListLexer p r EOF) (le_n _)) as H1.
  pose proof (@expression_accepts_from _ _ _ _ Hd' _ _ (height n')
                (passes_ListLexer_all (p ++ r) EOF) (le_n _)) as H2.
  destruct (@expression_outcome_unique _ _ _ _ _ _ _ _ _ H1 ltac:(discriminate)
              H2 ltac:(discriminate)) as [Hn _].
  injection Hn as Hn. subst n'.
  apply derives_shape in Hd as [_ Hlen].
  apply derives_shape in Hd' as [_ Hlen'].
  rewrite length_app in Hlen'.
  destruct r as [|t r]; [reflexivity|]. simpl in Hlen'. lia.
Qed.

(** Tokens that stop inside a derivation are not a whole sequence. *)
Lemma expects_not_sentence (ts : list Token) (x : string) (n : Node) :
  expects ts x -> ~ derives ts n.
Proof.
  intros Hx Hd.
  pose proof (passes_ListLexer ts [EOF] EOF) as Hp.
  pose proof (@expects_raises _ _ ts x Hx _ _ (S (length ts)) Hp
                (reported_rejects_marker (expects_reported Hx))
                (Nat.lt_succ_diag_r _)) as H1.
  pose proof (@expression_accepts_from _ _ _ _ Hd _ _ (height n) Hp (le_n _))
    as H2.
  destruct (@expression_outcome_unique _ _ _ _ _ _ _ _ _ H1 ltac:(discriminate)
              H2 ltac:(discriminate)) as [Ho _].
  discriminate Ho.
Qed.

(** After such tokens, a token of a type that is not wanted begins no
    sequence of the grammar. *)
Lemma expects_next_rejected (ts : list Token) (x : string) (t : Token) :
  expects ts x ->
  accepts x (type t) = false ->
  ~ viable (ts ++ [t]).
Proof.
  intros Hx Hacc [rest [n Hd]].
  rewrite <- app_assoc in Hd. simpl in Hd.
  pose proof (passes_ListLexer ts (t :: rest) EOF) as Hp.
  pose proof (@expects_raises _ _ ts x Hx _ _ (S (length ts)) Hp Hacc
                (Nat.lt_succ_diag_r _)) as H1.
  pose proof (@expression_accepts_from _ _ _ _ Hd _ _ (height n)
                (passes_ListLexer_all _ EOF) (le_n _)) as H2.
  destruct (@expression_outcome_unique _ _ _ _ _ _ _ _ _ H1 ltac:(discriminate)
              H2 ltac:(discriminate)) as [Ho _].
  discriminate Ho.
Qed.

Lemma viable_in_function (lp : Token) (ts : list Token) :
  type lp = "(" -> viable ts -> viable (lp :: ts).
Proof.
  intros Hlp [rest [n Hd]].
  exists (rest ++ [SYMBOL "x"; RPAREN])%list,
    (Application n (Variable_ "x")).
  simpl. rewrite app_assoc.
  apply (@derives_application lp RPAREN (ts ++ rest) [SYMBOL "x"]
           n (Variable_ "x")); [exact Hlp | exact Hd | | reflexivity].
  apply (@derives_variable (SYMBOL "x")). reflexivity.
Qed.

Lemma viable_in_argument (lp : Token) (ts1 ts : list Token) (n1 : Node) :
  type lp = "(" -> derives ts1 n1 -> viable ts -> viable (lp :: ts1 ++ ts).
Proof.
  intros Hlp Hd1 [rest [n Hd]].
  exists (rest ++ [RPAREN])%list, (Application n1 n).
  simpl. rewrite <- app_assoc. rewrite (app_assoc ts rest [RPAREN]).
  apply derives_application; [exact Hlp | exact Hd1 | exact Hd | reflexivity].
Qed.

Lemma viable_in_body (lam x dot : Token) (ts : list Token) :
  opens_abstraction (type lam) = true ->
  type x = "SYMBOL" ->
  type dot = "." ->
  viable ts ->
  viable (lam :: x :: dot :: ts).
Proof.
  intros Hlam Hx Hdot [rest [n Hd]].
  exists rest, (Abstraction (Variable_ (value x)) n).
  simpl. apply derives_abstraction; assumption.
Qed.

(** After tokens that stop inside a derivation, a token of a wanted type
    continues towards a sequence of the grammar. *)
Lemma expects_next_accepted (ts : list Token) (x : string) :
  expects ts x ->
  forall t : Token, accepts x (type t) = true -> viable (ts ++ [t]).
Proof.
  induction 1 as [
                 | lp ts x Hlp _ IH
                 | lp ts1 ts n1 x Hlp Hd1 _ IH
                 | lp ts1 ts2 n1 n2 Hlp Hd1 Hd2
                 | lam Hlam
                 | lam sy Hlam Hsy
                 | lam sy dot ts y Hlam Hsy Hdot _ IH];
    intros t Hacc.
  - rewrite accepts_expression in Hacc. simpl.
    destruct (dispatch_cases (type t)) as [Hty | [Hty | [Hty | Hty]]].
    + exists [SYMBOL "x"; SYMBOL "y"; RPAREN],
        (Application (Variable_ "x") (Variable_ "y")).
      apply (@derives_application t RPAREN [SYMBOL "x"] [SYMBOL "y"]);
        [exact Hty | | | reflexivity].
      * apply (@derives_variable (SYMBOL "x")). reflexivity.
      * apply (@derives_variable (SYMBOL "y")). reflexivity.
    + exists [SYMBOL "x"; DOT; SYMBOL "x"],
        (Abstraction (Variable_ "x") (Variable_ "x")).
      apply (@derives_abstraction t (SYMBOL "x") DOT);
        [exact Hty | reflexivity | reflexivity |].
      apply (@derives_variable (SYMBOL "x")). reflexivity.
    + exists [], (Variable_ (value t)).
      apply derives_variable. exact Hty.
    + rewrite Hty in Hacc. discriminate Hacc.
  - simpl. apply viable_in_function; [exact Hlp | exact (IH t Hacc)].
  - simpl. rewrite <- app_assoc.
    apply viable_in_argument with (n1 := n1);
      [exact Hlp | exact Hd1 | exact (IH t Hacc)].
  - rewrite accepts_close in Hacc. apply String.eqb_eq in Hacc.
    exists [], (Application n1 n2).
    rewrite app_nil_r. simpl. rewrite <- app_assoc.
    apply derives_application; assumption.
  - rewrite accepts_symbol in Hacc. apply String.eqb_eq in Hacc.
    exists [DOT; SYMBOL "x"], (Abstraction (Variable_ (value t)) (Variable_ "x")).
    apply (@derives_abstraction lam t DOT);
      [exact Hlam | exact Hacc | reflexivity |].
    apply (@derives_variable (SYMBOL "x")). reflexivity.
  - rewrite accepts_dot in Hacc. apply String.eqb_eq in Hacc.
    exists [SYMBOL "x"], (Abstraction (Variable_ (value sy)) (Variable_ "x")).
    apply (@derives_abstraction lam sy t);
      [exact Hlam | exact Hsy | exact Hacc |].
    apply (@derives_variable (SYMBOL "x")). reflexivity.
  - simpl. apply viable_in_body; [exact Hlam | exact Hsy | exact Hdot |].
    exact (IH t Hacc).
Qed.

Lemma reported_accepts_some (x : string) :
  In x reported_by_parse -> exists t : Token, accepts x (type t) = true.
Proof.
  simpl. intros [<- | [<- | [<- | [<- | []]]]].
  - exists (SYMBOL "x"). reflexivity.
  - exists (SYMBOL "x"). reflexivity.
  - exists DOT. reflexivity.
  - exists RPAREN. reflexivity.
Qed.

Lemma expects_viable (ts : list Token) (x : string) :
  expects ts x -> viable ts.
Proof.
  intros Hx.
  destruct (reported_accepts_some (expects_reported Hx)) as [t Hacc].
  exact (viable_prefix _ _ (expects_next_accepted Hx t Hacc)).
Qed.

(** What the text [x] names is exactly what can come next. *)
Lemma expects_next_iff (ts : list Token) (x : string) (t : Token) :
  expects ts x ->
  (viable (ts ++ [t]) <-> accepts x (type t) = true).
Proof.
  intros Hx. split.
  - intros Hv. destruct (accepts x (type t)) eqn:Hacc; [reflexivity|].
    contradiction (@expects_next_rejected _ _ _ Hx Hacc Hv).
  - apply expects_next_accepted. exact Hx.
Qed.

Lemma expects_first_mismatch (ts : list Token) (x : string) (t : Token) :
  expects ts x ->
  accepts x (type t) = false ->
  first_mismatch ts t.
Proof.
  intros Hx Hacc. split; [exact (expects_viable Hx)|]. split.
  - intros n. exact (@expects_not_sentence _ _ n Hx).
  - exact (@expects_next_rejected _ _ _ Hx Hacc).
Qed.

(** Every unfinished beginning of a sequence of the grammar stops inside a
    derivation. *)
Lemma viable_expects (ts : list Token) :
  viable ts ->
  (forall n : Node, ~ derives ts n) ->
  exists x : string, expects ts x.
Proof.
  intros Hv Hns.
  pose proof (@depth_measure_init EOF eq_refl ts) as [HI Hmu].
  pose proof (@expression_terminates EOF eq_refl (S (length ts)) _ HI
                ltac:(lia)) as Hterm.
  unfold terminates in Hterm.
  destruct (_expression (S (length ts)) (Parser_init (mkListLexer ts EOF)))
    as [[n | e |] self'] eqn:Hrun; simpl in Hterm.
  - apply expression_sound_from in Hrun as [p [Hd Hp]].
    apply passes_ListLexer_cases in Hp as [[q [Hq _]] | Hin].
    + subst ts. destruct Hv as [rest [n' Hd']].
      rewrite <- app_assoc in Hd'.
      pose proof (derives_prefix_free _ Hd Hd') as Hnil.
      apply app_eq_nil in Hnil as [-> _]. rewrite app_nil_r in Hns.
      contradiction (Hns n Hd).
    + contradiction (@derives_no_marker _ _ Hd EOF eq_refl Hin).
  - apply expression_raise_expects in Hrun as [p [Hp [Hx [Hacc _]]]].
    apply passes_ListLexer_cases in Hp as [[q [Hq Hs]] | Hin].
    + destruct q as [|t q].
      * rewrite app_nil_r in Hq. subst p. exists (expected e). exact Hx.
      * subst ts self'. simpl in Hacc.
        contradiction (@expects_next_rejected _ _ _ Hx Hacc).
        apply viable_prefix with (ts2 := q).
        rewrite <- app_assoc. exact Hv.
    + contradiction (viable_no_marker (expects_viable Hx) Hin).
  - contradiction Hterm. reflexivity.
Qed.

(** C4.  A failing [parse] ends in one [ParserError] with its two fields and
    no tree, and it fails exactly at the first mismatch of the token stream.

    When [parse] raises, the parser has moved over tokens that begin a
    sequence of the grammar without being one, and it stands on the first
    token that cannot continue them: that token is still the lookahead,
    [found] is its type, and the token types that can continue are exactly
    those that [expected] names.  The outcome is what [_error] gives in that
    final state.

    Conversely, when the tokens from the lookahead on begin a sequence of the
    grammar without being one and the token after them cannot continue them,
    [parse] raises on that token, for every budget above their number:
    nothing after the mismatch is pulled, skipped or repaired. *)
Theorem parse_failure_is_first_mismatch :
  forall (L : Type) (HL : Lexer L) (self self' : Parser L),
    (forall (fuel : nat) (e : ParserError),
        parse fuel self = (Raise e, self') ->
        found e = type (token self')
        /\ @_error L Node (expected e) self' = parse fuel self
        /\ message e
           = "Expected: " ++ expected e ++ ", Found: " ++ type (token self')
        /\ (forall n : Node, fst (parse fuel self) <> Return n)
        /\ exists ts : list Token,
             passes self ts self'
             /\ first_mismatch ts (token self')
             /\ forall t : Token,
                  viable (ts ++ [t])
                  <-> accepts (expected e) (type t) = true)
    /\
    (forall (ts : list Token) (fuel : nat),
        passes self ts self' ->
        first_mismatch ts (token self') ->
        length ts < fuel ->
        exists e : ParserError,
          parse fuel self = (Raise e, self')
          /\ found e = type (token self')
          /\ forall t : Token,
               viable (ts ++ [t])
               <-> accepts (expected e) (type t) = true).
Proof.
  intros L HL self self'. split.
  - intros fuel e Heq.
    destruct (expression_raise_expects _ _ Heq)
      as [ts [Hp [Hx [Hacc Hfound]]]].
    split; [exact Hfound|]. split; [|split; [|split]].
    + rewrite Heq. unfold _error, raise. rewrite <- Hfound.
      destruct e; reflexivity.
    + unfold message. rewrite Hfound. reflexivity.
    + intros n. rewrite Heq. discriminate.
    + exists ts. split; [exact Hp|]. split.
      * exact (@expects_first_mismatch _ _ _ Hx Hacc).
      * intros t. exact (@expects_next_iff _ _ t Hx).
  - intros ts fuel Hp [Hv [Hns Hbad]] Hfuel.
    destruct (viable_expects Hv Hns) as [x Hx].
    assert (Hacc : accepts x (type (token self')) = false).
    { destruct (accepts x (type (token self'))) eqn:Hacc; [|reflexivity].
      contradiction Hbad. exact (@expects_next_accepted _ _ Hx _ Hacc). }
    exists {| expected := x; found := type (token self') |}.
    split; [|split; [reflexivity|]].
    + unfold parse. exact (@expects_raises _ _ ts x Hx _ _ fuel Hp Hacc Hfuel).
    + intros t. exact (@expects_next_iff _ _ t Hx).
Qed.

Lemma parse_failure_is_first_mismatch_witness :
  let self := Parser_init (mkListLexer [LPAREN; SYMBOL "x"; DOT] EOF) in
  let self' := {| lexer := mkListLexer [] EOF; token := DOT |} in
  let e := {| expected := "(, λ, @, or SYMBOL"; found := "." |} in
  let ts := [LPAREN; SYMBOL "x"] in
  parse 2 self = (Raise e, self')
  /\ found e = type (token self')
  /\ passes self ts self'
  /\ first_mismatch ts (token self')
  /\ length ts < 3
  /\ exists e' : ParserError,
       parse 3 self = (Raise e', self')
       /\ found e' = type (token self')
       /\ forall t : Token,
            viable (ts ++ [t]) <-> accepts (expected e') (type t) = true.
Proof.
  intros self self' e ts.
  assert (Hrun : parse 2 self = (Raise e, self')) by reflexivity.
  assert (Hp : passes self ts self') by (simpl; repeat split).
  assert (Hlen : length ts < 3) by (simpl; lia).
  assert (Hfm : first_mismatch ts (token self')).
  { apply (@expects_first_mismatch ts "(, λ, @, or SYMBOL" DOT);
      [|reflexivity].
    apply (@expects_in_argument LPAREN [SYMBOL "x"] [] (Variable_ "x"));
      [reflexivity | | apply expects_expression].
    apply (@derives_variable (SYMBOL "x")). reflexivity. }
  split; [exact Hrun|].
  split; [exact (proj1 (proj1 (@parse_failure_is_first_mismatch
                                  ListLexer _ self self') 2 e Hrun))|].
  split; [exact Hp|]. split; [exact Hfm|]. split; [exact Hlen|].
  exact (proj2 (@parse_failure_is_first_mismatch ListLexer _ self self')
           ts 3 Hp Hfm Hlen).
Defined.
